(** * Version bumping logic of the template registry build script

    A shallow embedding of [bumpSemver] and [calculateNextVersion] from
    [scripts/test-build-registry.ts], together with the parts of the
    JavaScript runtime they rely on: strings as sequences of UTF-16 code
    units, a backtracking regular-expression matcher, [parseInt], Number
    arithmetic on integral doubles and Number-to-string conversion. *)

From Stdlib Require Import ZArith String Ascii Lia.
From stdpp Require Import base list gmap sets.

Local Open Scope Z_scope.

(** ** Strings *)

(** A JavaScript string is a sequence of 16-bit code units. *)
Abbreviation jsstring := (list N).

Definition js (s : string) : jsstring := N_of_ascii <$> list_ascii_of_string s.

Module RegExp.

(** ** Regular expressions: a backtracking matcher *)

Inductive regex : Type :=
| Empty
| Class (p : N → bool)
| Seq (r1 r2 : regex)
| Alt (r1 r2 : regex)
| Star (r : regex)
| Group (i : nat) (r : regex)
| AssertStart
| AssertEnd.

Definition Plus (r : regex) : regex := Seq r (Star r).
Definition Opt (r : regex) : regex := Alt r Empty.

(** The state of a match: the index reached in the input, the input that
    is left from there on, and the substrings captured so far (slot [i]
    holds the capture of group [i]; slot 0 is filled by [exec]). *)
Record MatchState : Type := mkState {
  endIndex : nat;
  rest : jsstring;
  captures : list (option jsstring)
}.

Definition advance (c : N) (tl : jsstring) (st : MatchState) : MatchState :=
  mkState (S (endIndex st)) tl (captures st).

Definition capture (i : nat) (st st' : MatchState) : MatchState :=
  mkState (endIndex st') (rest st')
          (<[i := Some (take (endIndex st' - endIndex st) (rest st))]> (captures st')).

Definition progress (st st' : MatchState) : bool :=
  (length (rest st') <? length (rest st))%nat.

(** The iterations of a greedy star whose body matches as [step] does:
    one more iteration is tried before stopping, and an iteration that
    consumes nothing is not repeated. Every iteration consumes a code
    unit, so the length of the remaining input is fuel enough. *)
Fixpoint iterStar (step : MatchState → list MatchState) (fuel : nat) (st : MatchState)
  : list MatchState :=
  match fuel with
  | O => [st]
  | S fuel' => (filter (λ st', progress st st' = true) (step st) ≫= iterStar step fuel') ++ [st]
  end.

(** [run r st] lists every way in which [r] matches at [st], in the order
    in which a backtracking matcher tries them: the left alternative
    before the right one, the longer repetition before the shorter. The
    first element is the match that the engine reports. (A group under a
    star would have its capture reset at each iteration; the pattern of
    the script has no such group.) *)
Fixpoint run (r : regex) (st : MatchState) : list MatchState :=
  match r with
  | Empty => [st]
  | Class p =>
      match rest st with
      | c :: tl => if p c then [advance c tl st] else []
      | [] => []
      end
  | Seq r1 r2 => run r1 st ≫= run r2
  | Alt r1 r2 => run r1 st ++ run r2 st
  | Star r1 => iterStar (run r1) (length (rest st)) st
  | Group i r1 => capture i st <$> run r1 st
  | AssertStart => if decide (endIndex st = O) then [st] else []
  | AssertEnd => match rest st with [] => [st] | _ => [] end
  end.

(** [RegExp.prototype.exec] without the global or sticky flag: the match
    is attempted at index 0, then 1, and so on up to the length of the
    input; the result array holds the matched substring followed by the
    captures of the [n] groups. *)
Fixpoint exec_from (r : regex) (n : nat) (i : nat) (s : jsstring)
  : option (list (option jsstring)) :=
  match head (run r (mkState i s (replicate (S n) None))) with
  | Some st => Some (<[O := Some (take (endIndex st - i) s)]> (captures st))
  | None =>
      match s with
      | [] => None
      | _ :: s' => exec_from r n (S i) s'
      end
  end.

Definition exec (r : regex) (n : nat) (s : jsstring) : option (list (option jsstring)) :=
  exec_from r n O s.

(** The matches of a regular expression as a relation: what [run]
    enumerates, without the order. *)
Inductive matches : regex → MatchState → MatchState → Prop :=
| M_Empty st : matches Empty st st
| M_Class p c tl st :
    rest st = c :: tl → p c = true → matches (Class p) st (advance c tl st)
| M_Seq r1 r2 st st1 st2 :
    matches r1 st st1 → matches r2 st1 st2 → matches (Seq r1 r2) st st2
| M_AltL r1 r2 st st' : matches r1 st st' → matches (Alt r1 r2) st st'
| M_AltR r1 r2 st st' : matches r2 st st' → matches (Alt r1 r2) st st'
| M_StarStop r st : matches (Star r) st st
| M_StarStep r st st1 st2 :
    matches r st st1 → progress st st1 = true → matches (Star r) st1 st2 →
    matches (Star r) st st2
| M_Group i r st st' : matches r st st' → matches (Group i r) st (capture i st st')
| M_Start st : endIndex st = O → matches AssertStart st st
| M_End st : rest st = [] → matches AssertEnd st st.

End RegExp.

Import RegExp.

Definition isDigit (c : N) : bool := ((48 <=? c) && (c <=? 57))%N.
Definition isLineTerminator (c : N) : bool :=
  ((c =? 10) || (c =? 13) || (c =? 8232) || (c =? 8233))%N.
Definition isChar (a : ascii) (c : N) : bool := (c =? N_of_ascii a)%N.

(** The pattern of [bumpSemver], term by term: [^], then [(\d+)], [\.],
    [(\d+)], [\.], [(\d+)], then the optional non-capturing group made of
    the class [[.-]] and a greedy star over [.] (any code unit but a line
    terminator), then [$]. No flag is set, so [^] and [$] only hold at the
    two ends of the input. *)
Definition semverRe : regex :=
  Seq AssertStart
  (Seq (Group 1 (Plus (Class isDigit)))
  (Seq (Class (isChar "."%char))
  (Seq (Group 2 (Plus (Class isDigit)))
  (Seq (Class (isChar "."%char))
  (Seq (Group 3 (Plus (Class isDigit)))
  (Seq (Opt (Seq (Class (λ c, isChar "."%char c || isChar "-"%char c))
                 (Star (Class (λ c, negb (isLineTerminator c))))))
       AssertEnd)))))).

(** ** Numbers *)

Module Num.

(** The Number values that the script can produce: [NaN], the integral
    doubles that are not negative, and [+Infinity]. A finite value is
    held as the integer it denotes. *)
Inductive number : Type :=
| NaN
| Finite (z : Z)
| Infinity.

Global Instance number_eq_dec : EqDecision number.
Proof. solve_decision. Defined.

Definition MAX_SAFE_INTEGER : Z := 2 ^ 53 - 1.

(** The Number value for a mathematical integer that is not negative:
    the nearest double, a tie going to the even significand, and
    [+Infinity] from [2^1024 - 2^970] on. Below [2^53] every integer is a
    double; from there on a double is a multiple of [2^e] with a 53-bit
    quotient. *)
Definition roundF64 (x : Z) : number :=
  if x <? 2 ^ 53 then Finite x
  else
    let e := Z.log2 x - 52 in
    let q := x / 2 ^ e in
    let r := x mod 2 ^ e in
    let q' := if 2 * r <? 2 ^ e then q
              else if 2 ^ e <? 2 * r then q + 1
              else if Z.even q then q else q + 1 in
    let y := q' * 2 ^ e in
    if y <? 2 ^ 1024 then Finite y else Infinity.

(** [x + 1] *)
Definition add1 (x : number) : number :=
  match x with
  | NaN => NaN
  | Finite z => roundF64 (z + 1)
  | Infinity => Infinity
  end.

(** *** Decimal digits *)

Definition digitValue (c : N) : Z := Z.of_N c - 48.
Definition digitChar (d : Z) : N := Z.to_N (48 + d).

(** The integer denoted by a string of decimal digits. *)
Definition mathInt (ds : jsstring) : Z :=
  fold_left (λ acc c, 10 * acc + digitValue c) ds 0.

Fixpoint dec_aux (fuel : nat) (x : Z) (acc : jsstring) : jsstring :=
  match fuel with
  | O => acc
  | S fuel' =>
      let acc' := digitChar (x mod 10) :: acc in
      if x <? 10 then acc' else dec_aux fuel' (x / 10) acc'
  end.

(** The decimal representation of an integer that is not negative, with
    no leading zero. *)
Definition dec (x : Z) : jsstring := dec_aux (S (Z.to_nat (Z.log2 x))) x [].

(** *** parseInt(string, 10) *)

Fixpoint digitPrefix (s : jsstring) : jsstring :=
  match s with
  | c :: tl => if isDigit c then c :: digitPrefix tl else []
  | [] => []
  end.

(** [parseInt(n, 10)] for an entry [n] of a match array. The digits at the
    front of the string are read as an integer, which is then converted
    to a Number; with no digit there the result is [NaN], as it is for
    [undefined], whose string form starts with a letter. (White space and
    a sign in front of the digits are not modelled: the captures of the
    pattern hold digits only.) *)
Definition parseInt10 (n : option jsstring) : number :=
  match n with
  | None => NaN
  | Some s =>
      let z := digitPrefix s in
      if decide (z = []) then NaN else roundF64 (mathInt z)
  end.

(** *** Number to string, radix 10 *)

(** [Number::toString] looks for integers [n], [k] and [s] with [s] of
    [k] digits and [s * 10^(n-k)] of Number value [x], [k] as small as
    possible, and among several [s] the one with [s * 10^(n-k)] nearest
    to [x], the even one on a tie. For an integral [x] the exponent
    [m = n - k] is not negative, and the smallest [k] goes with the
    largest [m].

    [pick x m] looks at the two multiples of [10^m] around [x], keeps
    those whose Number value is [x] and prefers the nearest. *)
Definition represents (v x : Z) : bool := bool_decide (roundF64 v = Finite x).

Definition pick (x : Z) (m : nat) : option Z :=
  let p := 10 ^ Z.of_nat m in
  let lo := x / p in
  let r := x mod p in
  let ok s := (0 <? s) && represents (s * p) x in
  if r =? 0 then (if ok lo then Some lo else None)
  else
    let hi := lo + 1 in
    let prefer_lo := (2 * r <? p) || ((2 * r =? p) && Z.even lo) in
    match ok lo, ok hi with
    | true, true => Some (if prefer_lo then lo else hi)
    | true, false => Some lo
    | false, true => Some hi
    | false, false => None
    end.

(** The shortest digit string: the largest count [m] of trailing zeros
    for which a candidate exists, searched downwards from the number of
    digits of [x]. With no zero dropped [x] stands for itself. *)
Fixpoint shortest (x : Z) (m : nat) : Z * nat :=
  match pick x m with
  | Some s => (s, m)
  | None =>
      match m with
      | O => (x, O)
      | S m' => shortest x m'
      end
  end.

(** [Number::toString(x, 10)]: with [k] digits [s] and [n] digits before
    the decimal point, the digits followed by [n - k] zeros when
    [n <= 21], the exponential form otherwise. *)
Definition toString (x : number) : jsstring :=
  match x with
  | NaN => js "NaN"
  | Infinity => js "Infinity"
  | Finite z =>
      if z =? 0 then js "0"
      else
        let '(s, m) := shortest z (length (dec z)) in
        let ds := dec s in
        let n := (length ds + m)%nat in
        if (n <=? 21)%nat then ds ++ replicate m 48%N
        else
          match ds with
          | [] => []
          | d :: [] => d :: js "e+" ++ dec (Z.of_nat n - 1)
          | d :: tl => d :: js "." ++ tl ++ js "e+" ++ dec (Z.of_nat n - 1)
          end
  end.

End Num.

Import Num.

(** ** The script *)

Inductive BumpPart : Type := Major | Minor | Patch.

(** [a || b] on a string that may be [undefined]: the empty string is
    falsy. *)
Definition orString (a : option jsstring) (b : jsstring) : jsstring :=
  match a with
  | Some (c :: s) => c :: s
  | Some [] | None => b
  end.

(** [a || b] on an array that may be [undefined]: every array is truthy. *)
Definition orArray {A : Type} (a : option (list A)) (b : list A) : list A :=
  match a with
  | Some l => l
  | None => b
  end.

(** [bumpSemver(v, part = 'minor')]. The argument [part] is [None] when
    the call leaves it out. [String(v)] is [v] itself, [v] being a
    string. The match array [m] has four entries, so the three numbers
    taken from [m.slice(1)] are always there. *)
Definition bumpSemver (v : jsstring) (part : option BumpPart) : jsstring :=
  let part := default Minor part in
  match exec semverRe 3 v with
  | None => js "1.0.0"
  | Some m =>
      let nums := parseInt10 <$> drop 1 m in
      let major := default NaN (nums !! 0%nat) in
      let minor := default NaN (nums !! 1%nat) in
      let patch := default NaN (nums !! 2%nat) in
      let '(major, minor, patch) :=
        match part with
        | Major => (add1 major, Finite 0, Finite 0)
        | Patch => (major, minor, add1 patch)
        | Minor => (major, add1 minor, Finite 0)
        end in
      toString major ++ js "." ++ toString minor ++ js "." ++ toString patch
  end.

Record Template : Type := { id : jsstring }.

Record RegistryFile : Type := {
  version : jsstring;
  templates : list Template
}.

Record Result : Type := {
  baseVersion : jsstring;
  nextVersion : jsstring;
  newIds : list jsstring
}.

(** [calculateNextVersion(liveRegistry, localTemplateIds, bumpPart = 'minor')],
    with [None] for a [null] registry. [prevIds] is a [Set] of strings. *)
Definition calculateNextVersion (liveRegistry : option RegistryFile)
    (localTemplateIds : list jsstring) (bumpPart : option BumpPart) : Result :=
  let prevIds : gset jsstring :=
    list_to_set (id <$> orArray (templates <$> liveRegistry) []) in
  let newIds := filter (λ id, id ∉ prevIds) localTemplateIds in
  let baseVersion := orString (version <$> liveRegistry) (js "1.0.0") in
  let nextVersion :=
    if decide (0 < length newIds)%nat then bumpSemver baseVersion bumpPart
    else baseVersion in
  {| baseVersion := baseVersion; nextVersion := nextVersion; newIds := newIds |}.

(** Registries and results written with string literals, for the cases
    of the test suite. *)
Definition registry (v : string) (ids : list string) : option RegistryFile :=
  Some {| version := js v; templates := (λ i, {| id := js i |}) <$> ids |}.

Definition result (base next : string) (new : list string) : Result :=
  {| baseVersion := js base; nextVersion := js next; newIds := js <$> new |}.

(** ** Shapes of version strings *)

(** A run of one or more decimal digits. *)
Definition digits (s : jsstring) : Prop :=
  s ≠ [] ∧ Forall (λ c, isDigit c = true) s.

(** A string of digits that does not start with a zero. *)
Definition nlz (ds : jsstring) : Prop :=
  Forall (λ c, isDigit c = true) ds ∧ ∀ tl, ds ≠ 48%N :: tl.

(** Nothing, or a dot or hyphen followed by code units none of which is a
    line terminator. *)
Definition suffix (s : jsstring) : Prop :=
  s = [] ∨
  ∃ c tl, s = c :: tl ∧ (c = 46 ∨ c = 45)%N ∧
          Forall (λ c, isLineTerminator c = false) tl.

(** [v] is [a.b.c] followed by [suf]. *)
Definition triple (v a b c suf : jsstring) : Prop :=
  v = a ++ js "." ++ b ++ js "." ++ c ++ suf ∧
  digits a ∧ digits b ∧ digits c ∧ suffix suf.

(** What the pattern accepts. *)
Definition wellFormed (v : jsstring) : Prop :=
  ∃ a b c suf, triple v a b c suf.

(** ** The documented behaviour *)

(** The component arithmetic of a bump. *)
Definition bump (part : BumpPart) (t : Z * Z * Z) : Z * Z * Z :=
  let '(major, minor, patch) := t in
  match part with
  | Major => (major + 1, 0, 0)
  | Minor => (major, minor + 1, 0)
  | Patch => (major, minor, patch + 1)
  end.

(** The bare [MAJOR.MINOR.PATCH] string of three components. *)
Definition render (t : Z * Z * Z) : jsstring :=
  let '(major, minor, patch) := t in
  dec major ++ js "." ++ dec minor ++ js "." ++ dec patch.

(** The version an evaluation starts from: ["1.0.0"] with no snapshot or
    with a snapshot whose version is the empty string, the version of
    the snapshot otherwise. *)
Definition startVersion (previous : option RegistryFile) : jsstring :=
  match previous with
  | None => js "1.0.0"
  | Some r =>
      match version r with
      | [] => js "1.0.0"
      | _ :: _ => version r
      end
  end.

(** The identifiers of the previous snapshot, none when there is no
    snapshot. *)
Definition known (previous : option RegistryFile) : list jsstring :=
  match previous with
  | None => []
  | Some r => id <$> templates r
  end.

(** A string that starts with three runs of digits separated by dots,
    whatever follows. *)
Definition leadingTriple (v : jsstring) : Prop :=
  ∃ a b c tl, v = a ++ js "." ++ b ++ js "." ++ c ++ tl ∧
              digits a ∧ digits b ∧ digits c.

(** How many times [x] occurs in [l]. *)
Definition occurrences (x : jsstring) (l : list jsstring) : nat :=
  length (filter (λ y, y = x) l).

(** [l'] is [l] with some identifiers taken out, each of them in [K]. *)
Inductive removal (K : list jsstring) : list jsstring → list jsstring → Prop :=
| removal_nil : removal K [] []
| removal_keep x l l' : removal K l l' → removal K (x :: l) (x :: l')
| removal_drop x l l' : x ∈ K → removal K l l' → removal K (x :: l) l'.

(** ** The rest of the script: assertions, test runner, live-registry check *)

Module JSON.

(** *** [JSON.stringify] on strings and arrays of strings *)

Definition isLeadSurrogate (c : N) : bool := ((55296 <=? c) && (c <=? 56319))%N.
Definition isTrailSurrogate (c : N) : bool := ((56320 <=? c) && (c <=? 57343))%N.

(** A lowercase hexadecimal digit. *)
Definition hexDigit (d : N) : N := (if d <? 10 then 48 + d else 87 + d)%N.

(** [\uXXXX] *)
Definition unicodeEscape (c : N) : jsstring :=
  [92; 117; hexDigit (c / 4096 mod 16); hexDigit (c / 256 mod 16);
   hexDigit (c / 16 mod 16); hexDigit (c mod 16)]%N.

(** The text for a code unit that is not half of a surrogate pair: the
    short escapes for backspace, tab, line feed, form feed, carriage
    return, double quote and backslash; [\uXXXX] for the other control
    characters and for a lone surrogate; the code unit itself otherwise. *)
Definition quoteUnit (c : N) : jsstring :=
  (if c =? 8 then [92; 98]
   else if c =? 9 then [92; 116]
   else if c =? 10 then [92; 110]
   else if c =? 12 then [92; 102]
   else if c =? 13 then [92; 114]
   else if c =? 34 then [92; 34]
   else if c =? 92 then [92; 92]
   else if (c <? 32) || isLeadSurrogate c || isTrailSurrogate c then unicodeEscape c
   else [c])%N.

(** The string is read code point by code point: a leading surrogate
    followed by a trailing one is a pair and is copied. *)
Fixpoint quoteBody (s : jsstring) : jsstring :=
  match s with
  | [] => []
  | c :: tl =>
      if isLeadSurrogate c then
        match tl with
        | d :: tl' =>
            if isTrailSurrogate d then c :: d :: quoteBody tl'
            else quoteUnit c ++ quoteBody tl
        | [] => quoteUnit c
        end
      else quoteUnit c ++ quoteBody tl
  end.

(** [QuoteJSONString] *)
Definition quote (s : jsstring) : jsstring := 34%N :: quoteBody s ++ [34%N].

(** [Array.prototype.join] *)
Fixpoint joinWith (sep : jsstring) (l : list jsstring) : jsstring :=
  match l with
  | [] => []
  | x :: tl =>
      match tl with
      | [] => x
      | _ :: _ => x ++ sep ++ joinWith sep tl
      end
  end.

(** The values that the script hands to [assertEqual]: its type
    parameter is [string] or [string[]] at every call. *)
Inductive value : Type :=
| VString (s : jsstring)
| VArray (l : list jsstring).

(** [JSON.stringify(v)] with no replacer and no indentation. *)
Definition stringify (v : value) : jsstring :=
  match v with
  | VString s => quote s
  | VArray l => 91%N :: joinWith [44%N] (quote <$> l) ++ [93%N]
  end.

(** A reader for quoted strings, used to show that [quote] loses
    nothing: it reads up to the closing quote and gives what is left. *)
Definition hexValue (h : N) : N := (if h <? 58 then h - 48 else h - 87)%N.

Fixpoint unquoteBody (t : jsstring) : option (jsstring * jsstring) :=
  match t with
  | [] => None
  | c :: t1 =>
      if (c =? 34)%N then Some ([], t1)
      else if (c =? 92)%N then
        match t1 with
        | [] => None
        | e :: t2 =>
            if (e =? 117)%N then
              match t2 with
              | h1 :: h2 :: h3 :: h4 :: t3 =>
                  (λ '(s, r), ((4096 * hexValue h1 + 256 * hexValue h2
                                + 16 * hexValue h3 + hexValue h4)%N :: s, r))
                    <$> unquoteBody t3
              | _ => None
              end
            else
              (λ '(s, r),
                 ((if e =? 98 then 8 else if e =? 116 then 9 else if e =? 110 then 10
                   else if e =? 102 then 12 else if e =? 114 then 13 else e)%N :: s, r))
                <$> unquoteBody t2
        end
      else (λ '(s, r), (c :: s, r)) <$> unquoteBody t1
  end.

End JSON.

Import JSON.

(** *** The test runner *)

(** How a call ends: it returns, or it throws an [Error] with a message. *)
Inductive completion : Type :=
| Normal
| Throw (message : jsstring).

Global Instance completion_eq_dec : EqDecision completion.
Proof. solve_decision. Defined.

(** Statements in sequence: a throw skips what follows. *)
Definition andThen (c1 c2 : completion) : completion :=
  match c1 with
  | Normal => c2
  | Throw m => Throw m
  end.

Definition assertEqual (actual expected : value) (message : option jsstring) : completion :=
  if decide (stringify actual ≠ stringify expected) then
    Throw (orString message (js "Assertion failed")
           ++ [10%N] ++ js "   Expected: " ++ stringify expected
           ++ [10%N] ++ js "   Actual:   " ++ stringify actual)
  else Normal.

Inductive stream : Type := Stdout | Stderr.

Global Instance stream_eq_dec : EqDecision stream.
Proof. solve_decision. Defined.

(** The two counters of the script and what it has written so far. *)
Record Runner : Type := {
  passed : number;
  failed : number;
  console : list (stream * jsstring)
}.

(** [let passed = 0; let failed = 0;] *)
Definition initial : Runner := {| passed := Finite 0; failed := Finite 0; console := [] |}.

(** [test(name, fn)], for a test function that runs to its end or throws
    an [Error] without touching the counters or the console. The marks
    written in front of the name are the three code units that the
    source file holds there. *)
Definition test (name : jsstring) (fn : unit → completion) (st : Runner) : Runner :=
  match fn tt with
  | Normal =>
      {| passed := add1 (passed st);
         failed := failed st;
         console := console st ++ [(Stdout, [8218; 250; 214; 32]%N ++ name)] |}
  | Throw message =>
      {| passed := passed st;
         failed := add1 (failed st);
         console := console st ++ [(Stderr, [8218; 249; 229; 32]%N ++ name);
                                   (Stderr, js "   " ++ message)] |}
  end.

(** [x > 0] *)
Definition gt0 (x : number) : bool :=
  match x with
  | NaN => false
  | Finite z => 0 <? z
  | Infinity => true
  end.

(** The summary at the end of the script: two lines on the console and
    [process.exit(1)] when a test has failed; [None] when the script
    runs off its end. *)
Definition summary (st : Runner) : Runner * option Z :=
  ({| passed := passed st;
      failed := failed st;
      console := console st ++
        [(Stdout, [10%N] ++ replicate 50 61%N);
         (Stdout, [10; 63743; 252; 236; 228]%N ++ js " Results: " ++ toString (passed st)
                  ++ js " passed, " ++ toString (failed st) ++ js " failed" ++ [10%N])] |},
   if gt0 (failed st) then Some 1 else None).

(** Calls of [test] one after the other. *)
Definition runTests (tests : list (jsstring * (unit → completion))) (st : Runner) : Runner :=
  foldl (λ st t, test t.1 t.2 st) st tests.

(** The fourteen tests of the script that run without the network, as
    written there. *)
Definition liveRegistry (v : string) (ids : list string) : RegistryFile :=
  {| version := js v; templates := (λ i, {| id := js i |}) <$> ids |}.

Definition syncTests : list (jsstring * (unit → completion)) :=
  [ (js "bumpSemver: minor bump from 1.0.0", λ _,
      assertEqual (VString (bumpSemver (js "1.0.0") (Some Minor))) (VString (js "1.1.0")) None);
    (js "bumpSemver: minor bump from 1.1.0", λ _,
      assertEqual (VString (bumpSemver (js "1.1.0") (Some Minor))) (VString (js "1.2.0")) None);
    (js "bumpSemver: patch bump from 1.1.0", λ _,
      assertEqual (VString (bumpSemver (js "1.1.0") (Some Patch))) (VString (js "1.1.1")) None);
    (js "bumpSemver: major bump from 1.1.0", λ _,
      assertEqual (VString (bumpSemver (js "1.1.0") (Some Major))) (VString (js "2.0.0")) None);
    (js "bumpSemver: handles invalid version", λ _,
      assertEqual (VString (bumpSemver (js "invalid") (Some Minor))) (VString (js "1.0.0")) None);
    (js "bumpSemver: handles empty string", λ _,
      assertEqual (VString (bumpSemver [] (Some Minor))) (VString (js "1.0.0")) None);
    (js "bumpSemver: handles prerelease version", λ _,
      assertEqual (VString (bumpSemver (js "1.2.3-beta.1") (Some Minor)))
                  (VString (js "1.3.0")) None);
    (js "No live registry (fresh start) -> uses 1.0.0", λ _,
      let result := calculateNextVersion None [js "template-a"; js "template-b"] (Some Minor) in
      andThen (assertEqual (VString (baseVersion result)) (VString (js "1.0.0")) None)
     (andThen (assertEqual (VString (nextVersion result)) (VString (js "1.1.0")) None)
              (assertEqual (VArray (newIds result))
                           (VArray [js "template-a"; js "template-b"]) None)));
    (js "No new templates -> keeps same version", λ _,
      let result := calculateNextVersion
                      (Some (liveRegistry "1.5.0" ["homepage"; "jellyfin-server"]%string))
                      [js "homepage"; js "jellyfin-server"] (Some Minor) in
      andThen (assertEqual (VString (baseVersion result)) (VString (js "1.5.0")) None)
     (andThen (assertEqual (VString (nextVersion result)) (VString (js "1.5.0")) None)
              (assertEqual (VArray (newIds result)) (VArray []) None)));
    (js "One new template -> bumps minor", λ _,
      let result := calculateNextVersion
                      (Some (liveRegistry "1.1.0" ["homepage"; "jellyfin-server"]%string))
                      [js "homepage"; js "jellyfin-server"; js "new-template"] (Some Minor) in
      andThen (assertEqual (VString (baseVersion result)) (VString (js "1.1.0")) None)
     (andThen (assertEqual (VString (nextVersion result)) (VString (js "1.2.0")) None)
              (assertEqual (VArray (newIds result)) (VArray [js "new-template"]) None)));
    (js "Multiple new templates -> bumps once", λ _,
      let result := calculateNextVersion
                      (Some (liveRegistry "2.0.0" ["homepage"]%string))
                      [js "homepage"; js "new-a"; js "new-b"; js "new-c"] (Some Minor) in
      andThen (assertEqual (VString (baseVersion result)) (VString (js "2.0.0")) None)
     (andThen (assertEqual (VString (nextVersion result)) (VString (js "2.1.0")) None)
              (assertEqual (VArray (newIds result))
                           (VArray [js "new-a"; js "new-b"; js "new-c"]) None)));
    (js "New template with patch bump", λ _,
      let result := calculateNextVersion
                      (Some (liveRegistry "1.1.0" ["homepage"]%string))
                      [js "homepage"; js "new-template"] (Some Patch) in
      andThen (assertEqual (VString (baseVersion result)) (VString (js "1.1.0")) None)
              (assertEqual (VString (nextVersion result)) (VString (js "1.1.1")) None));
    (js "Template removed (not in local) -> still keeps version (removals dont trigger bump)",
     λ _,
      let result := calculateNextVersion
                      (Some (liveRegistry "1.3.0" ["homepage"; "old-template"]%string))
                      [js "homepage"] (Some Minor) in
      andThen (assertEqual (VString (baseVersion result)) (VString (js "1.3.0")) None)
     (andThen (assertEqual (VString (nextVersion result)) (VString (js "1.3.0")) None)
              (assertEqual (VArray (newIds result)) (VArray []) None)));
    (js "Empty live registry templates array -> all local are new", λ _,
      let result := calculateNextVersion (Some (liveRegistry "1.0.0" []))
                      [js "template-a"] (Some Minor) in
      andThen (assertEqual (VString (nextVersion result)) (VString (js "1.1.0")) None)
              (assertEqual (VArray (newIds result)) (VArray [js "template-a"]) None)) ].

(** *** The live-registry test, after its input has been fetched *)

Module Replace.

(** The first match at index [i] or later: the code units passed over
    and the state at the end of the match. *)
Fixpoint matchFrom (r : regex) (n : nat) (i : nat) (s : jsstring)
  : option (jsstring * MatchState) :=
  match head (run r (mkState i s (replicate (S n) None))) with
  | Some st => Some ([], st)
  | None =>
      match s with
      | [] => None
      | c :: s' => (λ '(skipped, st), (c :: skipped, st)) <$> matchFrom r n (S i) s'
      end
  end.

(** [String.prototype.replace] with a pattern that has the global flag
    and a replacement text with no dollar sign: every match is replaced,
    from left to right, the search going on where the match ended, one
    code unit further after an empty match. [s] is the input from index
    [i] on. *)
Fixpoint replaceFrom (r : regex) (n : nat) (by_ : jsstring) (fuel : nat) (i : nat)
    (s : jsstring) : jsstring :=
  match fuel with
  | O => s
  | S fuel' =>
      match matchFrom r n i s with
      | None => s
      | Some (skipped, st) =>
          if decide (endIndex st = (i + length skipped)%nat) then
            match rest st with
            | [] => skipped ++ by_
            | c :: tl => skipped ++ by_ ++ c :: replaceFrom r n by_ fuel' (S (endIndex st)) tl
            end
          else skipped ++ by_ ++ replaceFrom r n by_ fuel' (endIndex st) (rest st)
      end
  end.

Definition replaceAll (r : regex) (n : nat) (by_ : jsstring) (s : jsstring) : jsstring :=
  replaceFrom r n by_ (S (length s)) O s.

End Replace.

Import Replace.

(** [[a-z0-9-]] *)
Definition isIdChar (c : N) : bool :=
  (((97 <=? c) && (c <=? 122)) || ((48 <=? c) && (c <=? 57)) || (c =? 45))%N.

(** [/[^a-z0-9-]/g] *)
Definition idRe : regex := Class (λ c, negb (isIdChar c)).

Section LocalIds.

(** [String.prototype.toLowerCase] follows the case tables of Unicode;
    the identifiers below are built for whatever it returns. *)
Variable toLowerCase : jsstring → jsstring.

(** [e.name.toLowerCase().replace(/[^a-z0-9-]/g, '-')] *)
Definition localId (name : jsstring) : jsstring :=
  replaceAll idRe 0 (js "-") (toLowerCase name).

End LocalIds.

(** The pattern of the check, [^], [\d+], [\.], [\d+], [\.], [\d+], [$]:
    no group and no suffix. *)
Definition strictRe : regex :=
  Seq AssertStart
  (Seq (Plus (Class isDigit))
  (Seq (Class (isChar "."%char))
  (Seq (Plus (Class isDigit))
  (Seq (Class (isChar "."%char))
  (Seq (Plus (Class isDigit))
       AssertEnd))))).

(** The check at the end of the live-registry test; [nextVersion] is a
    string, so only the pattern decides. *)
Definition versionCheck (result : Result) : completion :=
  match exec strictRe 0 (nextVersion result) with
  | None => Throw (js "Invalid version format: " ++ nextVersion result)
  | Some _ => Normal
  end.

(** [v] is [a.b.c] and nothing more. *)
Definition bare (v : jsstring) : Prop :=
  ∃ a b c, triple v a b c [].

(** The components of [v], when it has the shape that the pattern of
    [bumpSemver] accepts, are safe integers. *)
Definition safe (v : jsstring) : Prop :=
  ∀ a b c suf, triple v a b c suf →
    mathInt a ≤ MAX_SAFE_INTEGER ∧ mathInt b ≤ MAX_SAFE_INTEGER ∧
    mathInt c ≤ MAX_SAFE_INTEGER.




(** ** Facts about the matcher *)

Section RunSpec.

Lemma bind_ext_in {A B : Type} (f g : A → list B) (l : list A) :
  (∀ x, x ∈ l → f x = g x) → l ≫= f = l ≫= g.
Proof.
  induction l as [|x l IH]; intros H; [done|].
  rewrite !bind_cons, (H x) by left.
  f_equal. apply IH. intros y Hy. apply H. by right.
Qed.

Lemma filter_none {A : Type} (P : A → Prop) `{!∀ x, Decision (P x)} (l : list A) :
  (∀ x, x ∈ l → ¬ P x) → filter P l = [].
Proof.
  induction l as [|x l IH]; intros Hl; [done|].
  rewrite filter_cons_False by (apply Hl; left).
  apply IH. intros y Hy. apply Hl. by right.
Qed.

Lemma progress_lt st st' :
  progress st st' = true ↔ (length (rest st') < length (rest st))%nat.
Proof. unfold progress. apply Nat.ltb_lt. Qed.

Lemma iterStar_fuel step n m st :
  (length (rest st) ≤ n)%nat → (length (rest st) ≤ m)%nat →
  iterStar step n st = iterStar step m st.
Proof.
  revert m st. induction n as [|n IH]; intros [|m] st Hn Hm; simpl; try done.
  - rewrite filter_none; [done|]. intros st' _. rewrite progress_lt. lia.
  - rewrite filter_none; [done|]. intros st' _. rewrite progress_lt. lia.
  - f_equal. apply bind_ext_in. intros st' Hst'.
    apply list_elem_of_filter in Hst' as [Hp _]. apply progress_lt in Hp.
    apply IH; lia.
Qed.

Lemma iterStar_sound r n st st' :
  (∀ st st', st' ∈ run r st → matches r st st') →
  st' ∈ iterStar (run r) n st → matches (Star r) st st'.
Proof.
  intros IHr. revert st. induction n as [|n IH]; intros st; simpl.
  - intros ->%list_elem_of_singleton. constructor.
  - rewrite elem_of_app, list_elem_of_bind, list_elem_of_singleton.
    intros [(st1 & H2 & H1)| ->]; [|constructor].
    apply list_elem_of_filter in H1 as [Hp H1].
    eapply M_StarStep; eauto.
Qed.

Lemma run_sound r st st' : st' ∈ run r st → matches r st st'.
Proof.
  revert st st'. induction r as [|p|r1 IH1 r2 IH2|r1 IH1 r2 IH2|r IH|i r IH| |];
    intros st st'; simpl.
  - intros ->%list_elem_of_singleton. constructor.
  - destruct (rest st) as [|c tl] eqn:E; [by intros ?%elem_of_nil|].
    destruct (p c) eqn:Ep; [|by intros ?%elem_of_nil].
    intros ->%list_elem_of_singleton. by constructor.
  - rewrite list_elem_of_bind. intros (st1 & H2 & H1). econstructor; eauto.
  - rewrite elem_of_app. intros [H|H]; [apply M_AltL|apply M_AltR]; eauto.
  - by apply iterStar_sound.
  - rewrite list_elem_of_fmap. intros (st1 & -> & H). constructor; eauto.
  - case_decide; [|by intros ?%elem_of_nil].
    intros ->%list_elem_of_singleton. by constructor.
  - destruct (rest st) eqn:E; [|by intros ?%elem_of_nil].
    intros ->%list_elem_of_singleton. by constructor.
Qed.

Lemma run_complete r st st' : matches r st st' → st' ∈ run r st.
Proof.
  induction 1 as [st|p c tl st E Ep|r1 r2 st st1 st2 _ IH1 _ IH2
                 |r1 r2 st st' _ IH|r1 r2 st st' _ IH|r st
                 |r st st1 st2 _ IH1 Hp _ IH2|i r st st' _ IH|st E|st E]; simpl.
  - by apply list_elem_of_singleton.
  - rewrite E, Ep. by apply list_elem_of_singleton.
  - apply list_elem_of_bind. eauto.
  - apply elem_of_app. auto.
  - apply elem_of_app. auto.
  - destruct (length (rest st)); simpl; [by apply list_elem_of_singleton|].
    apply elem_of_app. right. by apply list_elem_of_singleton.
  - simpl in IH2. pose proof Hp as Hlt. apply progress_lt in Hlt.
    destruct (length (rest st)) as [|n] eqn:E; [lia|]. simpl.
    apply elem_of_app. left. apply list_elem_of_bind. exists st1. split.
    + rewrite (iterStar_fuel _ n (length (rest st1))) by lia. done.
    + by apply list_elem_of_filter.
  - apply list_elem_of_fmap. eauto.
  - rewrite decide_True by done. by apply list_elem_of_singleton.
  - rewrite E. by apply list_elem_of_singleton.
Qed.

End RunSpec.

Section MatchesInv.

Lemma matches_empty st st' : matches Empty st st' ↔ st' = st.
Proof. split; [by inversion 1|intros ->; constructor]. Qed.

Lemma matches_class p i s caps st' :
  matches (Class p) (mkState i s caps) st' ↔
  ∃ c tl, s = c :: tl ∧ p c = true ∧ st' = mkState (S i) tl caps.
Proof.
  split.
  - inversion 1; subst. simpl in *. subst. eauto.
  - intros (c & tl & -> & Hp & ->).
    by apply (M_Class p c tl (mkState i (c :: tl) caps)).
Qed.

Lemma matches_seq r1 r2 st st' :
  matches (Seq r1 r2) st st' ↔ ∃ st1, matches r1 st st1 ∧ matches r2 st1 st'.
Proof.
  split; [inversion 1; subst; eauto|intros (st1 & H1 & H2); econstructor; eauto].
Qed.

Lemma matches_alt r1 r2 st st' :
  matches (Alt r1 r2) st st' ↔ matches r1 st st' ∨ matches r2 st st'.
Proof.
  split; [inversion 1; subst; auto|intros [H|H]; [apply M_AltL|apply M_AltR]; done].
Qed.

Lemma matches_start st st' :
  matches AssertStart st st' ↔ endIndex st = O ∧ st' = st.
Proof. split; [by inversion 1|intros [? ->]; by constructor]. Qed.

Lemma matches_end st st' :
  matches AssertEnd st st' ↔ rest st = [] ∧ st' = st.
Proof. split; [by inversion 1|intros [? ->]; by constructor]. Qed.

Lemma matches_group j r st st' :
  matches (Group j r) st st' ↔ ∃ st1, matches r st st1 ∧ st' = capture j st st1.
Proof.
  split; [inversion 1; subst; eauto|intros (st1 & H1 & ->); by constructor].
Qed.

Lemma matches_star_class p i s caps st' :
  matches (Star (Class p)) (mkState i s caps) st' ↔
  ∃ ds tl, Forall (λ c, p c = true) ds ∧ s = ds ++ tl ∧
           st' = mkState (i + length ds) tl caps.
Proof.
  split.
  - intros H. remember (Star (Class p)) as r eqn:Er.
    remember (mkState i s caps) as st eqn:Est.
    revert i s Est. induction H as [| | | | |r st|r st st1 st2 H1 _ Hp H2 IH| | |];
      try discriminate; intros i s ->; injection Er as ->.
    + exists [], s. simpl. rewrite Nat.add_0_r. done.
    + apply matches_class in H1 as (c & tl & -> & Hc & ->).
      destruct (IH eq_refl _ _ eq_refl) as (ds & tl' & Hds & -> & ->).
      exists (c :: ds), tl'. split_and!; [by constructor|done|].
      simpl. f_equal. lia.
  - intros (ds & tl & Hds & -> & ->). revert i.
    induction Hds as [|c ds Hc Hds IH]; intros i; simpl.
    + rewrite Nat.add_0_r. constructor.
    + apply M_StarStep with (st1 := mkState (S i) (ds ++ tl) caps).
      * apply matches_class. eauto.
      * apply progress_lt. simpl. lia.
      * replace (i + S (length ds))%nat with (S i + length ds)%nat by lia.
        apply IH.
Qed.

Lemma matches_plus_class p i s caps st' :
  matches (Plus (Class p)) (mkState i s caps) st' ↔
  ∃ ds tl, ds ≠ [] ∧ Forall (λ c, p c = true) ds ∧ s = ds ++ tl ∧
           st' = mkState (i + length ds) tl caps.
Proof.
  unfold Plus. rewrite matches_seq. split.
  - intros (st1 & (c & tl & -> & Hc & ->)%matches_class & H2).
    apply matches_star_class in H2 as (ds & tl' & Hds & -> & ->).
    exists (c :: ds), tl'. split_and!; [done|by constructor|done|].
    simpl. f_equal. lia.
  - intros (ds & tl & Hne & Hds & -> & ->).
    destruct Hds as [|c ds Hc Hds]; [done|].
    exists (mkState (S i) (ds ++ tl) caps). split.
    + apply matches_class. eauto.
    + apply matches_star_class. exists ds, tl. split_and!; [done..|].
      simpl. f_equal. lia.
Qed.

Lemma matches_group_plus_class j p i s caps st' :
  matches (Group j (Plus (Class p))) (mkState i s caps) st' ↔
  ∃ ds tl, ds ≠ [] ∧ Forall (λ c, p c = true) ds ∧ s = ds ++ tl ∧
           st' = mkState (i + length ds) tl (<[j := Some ds]> caps).
Proof.
  rewrite matches_group. split.
  - intros (st1 & (ds & tl & Hne & Hds & -> & ->)%matches_plus_class & ->).
    exists ds, tl. split_and!; [done..|].
    unfold capture. simpl. do 2 f_equal.
    replace (i + length ds - i)%nat with (length ds) by lia.
    by rewrite take_app_length.
  - intros (ds & tl & Hne & Hds & -> & ->).
    exists (mkState (i + length ds) tl caps). split.
    + apply matches_plus_class. exists ds, tl. done.
    + unfold capture. simpl. do 3 f_equal.
      replace (i + length ds - i)%nat with (length ds) by lia.
      by rewrite take_app_length.
Qed.

End MatchesInv.

Section SemverRe.

Lemma isChar_dot c : isChar "."%char c = true ↔ c = 46%N.
Proof. unfold isChar. simpl. apply N.eqb_eq. Qed.

Lemma isChar_dot_hyphen c :
  isChar "."%char c || isChar "-"%char c = true ↔ (c = 46 ∨ c = 45)%N.
Proof. unfold isChar. simpl. rewrite orb_true_iff, !N.eqb_eq. done. Qed.

Lemma matches_semverRe i v caps st' :
  matches semverRe (mkState i v caps) st' ↔
  i = O ∧ ∃ a b c suf, triple v a b c suf ∧
    st' = mkState (length v) []
            (<[3%nat := Some c]> (<[2%nat := Some b]> (<[1%nat := Some a]> caps))).
Proof.
  unfold semverRe. split.
  - intros H.
    apply matches_seq in H as (? & [Hi ->]%matches_start & H). simpl in Hi. subst i.
    apply matches_seq in H as
      (? & (a & ? & Hna & Ha & -> & ->)%matches_group_plus_class & H).
    apply matches_seq in H as (? & (? & ? & -> & ->%isChar_dot & ->)%matches_class & H).
    apply matches_seq in H as
      (? & (b & ? & Hnb & Hb & -> & ->)%matches_group_plus_class & H).
    apply matches_seq in H as (? & (? & ? & -> & ->%isChar_dot & ->)%matches_class & H).
    apply matches_seq in H as
      (? & (c & suf & Hnc & Hc & -> & ->)%matches_group_plus_class & H).
    apply matches_seq in H as (st1 & Hopt & [He ->]%matches_end).
    split; [done|]. exists a, b, c, suf.
    assert (suffix suf ∧ st1 = mkState (length (a ++ 46%N :: b ++ 46%N :: c ++ suf)) []
              (<[3%nat:=Some c]> (<[2%nat:=Some b]> (<[1%nat:=Some a]> caps))))
      as [Hsuf ->].
    { apply matches_alt in Hopt as [H| ->%matches_empty].
      - apply matches_seq in H as
          (? & (c0 & tl & -> & Hc0%isChar_dot_hyphen & ->)%matches_class & H).
        apply matches_star_class in H as (ds & tl' & Hds & -> & ->).
        simpl in He. subst tl'. rewrite app_nil_r. split.
        + right. exists c0, ds. split_and!; [done..|].
          eapply Forall_impl; [done|]. intros x Hx. simpl in Hx.
          by apply negb_true_iff.
        + f_equal. rewrite !length_app; simpl. rewrite !length_app; simpl.
          rewrite !length_app; simpl. lia.
      - simpl in He. subst suf. split; [by left|].
        f_equal. rewrite !length_app; simpl. rewrite !length_app; simpl.
        rewrite !length_app; simpl. lia. }
    split; [|done]. by split_and!.
  - intros (-> & a & b & c & suf & (-> & [Hna Ha] & [Hnb Hb] & [Hnc Hc] & Hsuf) & ->).
    apply matches_seq. eexists. split; [by apply matches_start|].
    apply matches_seq. eexists. split.
    { apply matches_group_plus_class. exists a. eexists. split_and!; done. }
    apply matches_seq. eexists. split.
    { apply matches_class. eexists _, _. split_and!; [simpl; done|done|done]. }
    apply matches_seq. eexists. split.
    { apply matches_group_plus_class. exists b. eexists. split_and!; done. }
    apply matches_seq. eexists. split.
    { apply matches_class. eexists _, _. split_and!; [simpl; done|done|done]. }
    apply matches_seq. eexists. split.
    { apply matches_group_plus_class. exists c. eexists. split_and!; done. }
    apply matches_seq.
    exists (mkState (length (a ++ js "." ++ b ++ js "." ++ c ++ suf)) []
              (<[3%nat:=Some c]> (<[2%nat:=Some b]> (<[1%nat:=Some a]> caps)))).
    split; [|by apply matches_end].
    apply matches_alt. destruct Hsuf as [->|(c0 & tl & -> & Hc0 & Htl)].
    + right. apply matches_empty. f_equal.
      simpl. rewrite !length_app; simpl. rewrite !length_app; simpl.
      rewrite !length_app; simpl. lia.
    + left. apply matches_seq. eexists. split.
      { apply matches_class. eexists _, _. split_and!; [done| |done].
        by apply isChar_dot_hyphen. }
      apply matches_star_class. exists tl, []. split_and!.
      * eapply Forall_impl; [done|]. intros x Hx. simpl. by rewrite Hx.
      * by rewrite app_nil_r.
      * f_equal. simpl. rewrite !length_app; simpl. rewrite !length_app; simpl.
        rewrite !length_app; simpl. lia.
Qed.

Lemma span_unique (P : N → Prop) (ds ds' tl tl' : jsstring) :
  Forall P ds → Forall P ds' →
  (∀ x t, tl = x :: t → ¬ P x) → (∀ x t, tl' = x :: t → ¬ P x) →
  ds ++ tl = ds' ++ tl' → ds = ds' ∧ tl = tl'.
Proof.
  intros Hds. revert ds'. induction Hds as [|d ds Hd Hds IH]; intros ds' Hds' Htl Htl' E.
  - destruct Hds' as [|d' ds' Hd' Hds']; [done|].
    simpl in E. by destruct (Htl _ _ E).
  - destruct Hds' as [|d' ds' Hd' Hds'].
    + simpl in E. symmetry in E. by destruct (Htl' _ _ E).
    + simpl in E. injection E as -> E.
      destruct (IH _ Hds' Htl Htl' E) as [-> ->]. done.
Qed.

Lemma suffix_head suf x t : suffix suf → suf = x :: t → ¬ isDigit x = true.
Proof.
  intros [->|(c & tl & -> & Hc & _)]; [done|].
  intros [= <- _]. by destruct Hc as [-> | ->].
Qed.

Lemma triple_unique v a b c suf a' b' c' suf' :
  triple v a b c suf → triple v a' b' c' suf' →
  a = a' ∧ b = b' ∧ c = c' ∧ suf = suf'.
Proof.
  intros (-> & [_ Ha] & [_ Hb] & [_ Hc] & Hsuf) (E & [_ Ha'] & [_ Hb'] & [_ Hc'] & Hsuf').
  apply (span_unique (λ x, isDigit x = true)) in E as [-> E];
    [|done|done|by intros ?? [= <- _]..].
  simpl in E. injection E as E.
  apply (span_unique (λ x, isDigit x = true)) in E as [-> E];
    [|done|done|by intros ?? [= <- _]..].
  simpl in E. injection E as E.
  apply (span_unique (λ x, isDigit x = true)) in E as [-> E];
    [done|done|done|intros x t; by apply suffix_head..].
Qed.

Lemma run_semverRe_later i s caps : run semverRe (mkState (S i) s caps) = [].
Proof.
  apply elem_of_nil_inv. intros st' H%run_sound.
  by apply matches_semverRe in H as [? _].
Qed.

Lemma exec_from_unfold r n i s :
  exec_from r n i s =
  match head (run r (mkState i s (replicate (S n) None))) with
  | Some st => Some (<[O := Some (take (endIndex st - i) s)]> (captures st))
  | None => match s with [] => None | _ :: s' => exec_from r n (S i) s' end
  end.
Proof. by destruct s. Qed.

Lemma exec_from_semverRe_later n i s : exec_from semverRe n (S i) s = None.
Proof.
  revert i. induction s as [|x s IH]; intros i;
    rewrite exec_from_unfold, run_semverRe_later; simpl; done.
Qed.

Lemma exec_semverRe_Some v a b c suf :
  triple v a b c suf →
  exec semverRe 3 v = Some [Some v; Some a; Some b; Some c].
Proof.
  intros Ht. unfold exec.
  assert (∃ st, head (run semverRe (mkState O v (replicate 4 None))) = Some st)
    as [st Hst].
  { destruct (run semverRe (mkState O v (replicate 4 None))) as [|st l] eqn:E;
      [|by eexists].
    assert (mkState (length v) []
              (<[3%nat:=Some c]> (<[2%nat:=Some b]> (<[1%nat:=Some a]>
                 (replicate 4 None)))) ∈ run semverRe (mkState O v (replicate 4 None)))
      as Hin.
    { apply run_complete, matches_semverRe. split; [done|]. by exists a, b, c, suf. }
    rewrite E in Hin. by apply elem_of_nil in Hin. }
  rewrite exec_from_unfold, Hst.
  apply head_Some_elem_of, run_sound in Hst.
  apply matches_semverRe in Hst as (_ & a' & b' & c' & suf' & Ht' & ->).
  destruct (triple_unique _ _ _ _ _ _ _ _ _ Ht Ht') as (<- & <- & <- & <-).
  simpl. rewrite Nat.sub_0_r. by rewrite take_ge.
Qed.

Lemma exec_semverRe_None v : ¬ wellFormed v → exec semverRe 3 v = None.
Proof.
  intros Hv. unfold exec.
  assert (run semverRe (mkState O v (replicate 4 None)) = []) as E.
  { apply elem_of_nil_inv. intros st' H%run_sound.
    apply matches_semverRe in H as (_ & a & b & c & suf & Ht & _).
    apply Hv. by exists a, b, c, suf. }
  rewrite exec_from_unfold, E. simpl.
  destruct v; [done|]. apply exec_from_semverRe_later.
Qed.

End SemverRe.

(** ** Facts about decimal digits *)

Section Decimal.

Lemma isDigit_spec c : isDigit c = true ↔ (48 ≤ c ≤ 57)%N.
Proof. unfold isDigit. rewrite andb_true_iff, !N.leb_le. done. Qed.

Lemma digitValue_range c : isDigit c = true → 0 ≤ digitValue c ≤ 9.
Proof. rewrite isDigit_spec. unfold digitValue. lia. Qed.

Lemma digitValue_zero c : isDigit c = true → digitValue c = 0 → c = 48%N.
Proof. rewrite isDigit_spec. unfold digitValue. lia. Qed.

Lemma digitChar_digit d : 0 ≤ d ≤ 9 → isDigit (digitChar d) = true.
Proof. intros. apply isDigit_spec. unfold digitChar. lia. Qed.

Lemma digitValue_digitChar d : 0 ≤ d ≤ 9 → digitValue (digitChar d) = d.
Proof. intros. unfold digitValue, digitChar. lia. Qed.

Lemma digitPrefix_digits ds :
  Forall (λ c, isDigit c = true) ds → digitPrefix ds = ds.
Proof. induction 1 as [|c ds Hc _ IH]; simpl; [done|]. by rewrite Hc, IH. Qed.

Lemma mathInt_snoc ds c : mathInt (ds ++ [c]) = 10 * mathInt ds + digitValue c.
Proof. unfold mathInt. by rewrite fold_left_app. Qed.

Lemma Forall_snoc_inv {A : Type} (P : A → Prop) (l : list A) (x : A) :
  Forall P (l ++ [x]) → Forall P l ∧ P x.
Proof. rewrite Forall_app. intros [? H]. split; [done|]. by inversion H. Qed.

Lemma mathInt_nonneg ds : Forall (λ c, isDigit c = true) ds → 0 ≤ mathInt ds.
Proof.
  induction ds as [|c ds IH] using rev_ind; [done|].
  rewrite mathInt_snoc.
  intros [Hds Hc%digitValue_range]%Forall_snoc_inv. specialize (IH Hds). lia.
Qed.

Lemma nlz_snoc_inv ds c : nlz (ds ++ [c]) → nlz ds ∧ isDigit c = true.
Proof.
  intros [[Hds Hc]%Forall_snoc_inv Hz]. split; [split|]; [done| |done].
  intros tl ->. by apply (Hz (tl ++ [c])).
Qed.

Lemma nlz_single c : nlz [c] → 1 ≤ digitValue c ≤ 9.
Proof.
  intros [[_ Hc]%(Forall_snoc_inv _ []) Hz].
  pose proof (digitValue_range _ Hc).
  assert (digitValue c ≠ 0); [|lia].
  intros ->%digitValue_zero; [|done]. by apply (Hz []).
Qed.

Lemma mathInt_lower ds :
  nlz ds → ds ≠ [] → 10 ^ (Z.of_nat (length ds) - 1) ≤ mathInt ds.
Proof.
  induction ds as [|c ds IH] using rev_ind; [done|]. intros Hn _.
  rewrite mathInt_snoc, length_app. simpl.
  destruct ds as [|d ds].
  - apply nlz_single in Hn. simpl. unfold mathInt. simpl. lia.
  - apply nlz_snoc_inv in Hn as [Hds Hc%digitValue_range].
    specialize (IH Hds ltac:(done)). simpl length in *.
    replace (Z.of_nat (S (length ds) + 1) - 1) with (Z.succ (Z.of_nat (S (length ds)) - 1))
      by lia.
    rewrite Z.pow_succ_r by lia. lia.
Qed.

Lemma mathInt_pos ds : nlz ds → ds ≠ [] → 0 < mathInt ds.
Proof.
  intros Hn Hne. pose proof (mathInt_lower ds Hn Hne).
  assert (0 < 10 ^ (Z.of_nat (length ds) - 1)); [|lia].
  apply Z.pow_pos_nonneg; [lia|]. destruct ds; [done|simpl; lia].
Qed.

Lemma nlz_unique ds ds' : nlz ds → nlz ds' → mathInt ds = mathInt ds' → ds = ds'.
Proof.
  revert ds'. induction ds as [|c ds IH] using rev_ind; intros ds' Hn Hn' E.
  - destruct ds' as [|c' ds']; [done|].
    pose proof (mathInt_pos _ Hn' ltac:(done)). unfold mathInt at 1 in E. simpl in E. lia.
  - destruct ds' as [|c' ds' _] using rev_ind.
    { pose proof (mathInt_pos _ Hn ltac:(by destruct ds)).
      unfold mathInt at 2 in E. simpl in E. lia. }
    rewrite !mathInt_snoc in E.
    assert (isDigit c = true ∧ isDigit c' = true) as [Hc Hc'].
    { destruct Hn as [[_ ?]%Forall_snoc_inv _].
      destruct Hn' as [[_ ?]%Forall_snoc_inv _]. done. }
    apply digitValue_range in Hc as Hr. apply digitValue_range in Hc' as Hr'.
    assert (c = c') as <-.
    { apply isDigit_spec in Hc, Hc'. unfold digitValue in *. lia. }
    f_equal. destruct ds as [|d ds], ds' as [|d' ds'].
    + done.
    + apply nlz_snoc_inv in Hn' as [Hn' _].
      pose proof (mathInt_pos _ Hn' ltac:(done)).
      apply nlz_single in Hn. unfold mathInt at 1 in E. simpl in E. lia.
    + apply nlz_snoc_inv in Hn as [Hn _].
      pose proof (mathInt_pos _ Hn ltac:(done)).
      apply nlz_single in Hn'. unfold mathInt at 2 in E. simpl in E. lia.
    + apply nlz_snoc_inv in Hn as [Hn _]. apply nlz_snoc_inv in Hn' as [Hn' _].
      apply IH; [done..|lia].
Qed.

Lemma nlz_snoc ds c : nlz ds → ds ≠ [] → isDigit c = true → nlz (ds ++ [c]).
Proof.
  intros [Hds Hz] Hne Hc. split.
  - apply Forall_app. split; [done|]. by constructor.
  - intros tl E. destruct ds as [|d ds]; [done|].
    simpl in E. injection E as -> _. by apply (Hz ds).
Qed.

Lemma dec_aux_spec fuel x acc :
  0 ≤ x < 2 ^ Z.of_nat fuel → fuel ≠ O →
  ∃ ds, dec_aux fuel x acc = ds ++ acc ∧ ds ≠ [] ∧ mathInt ds = x ∧
        (0 < x → nlz ds) ∧ (x = 0 → ds = [48%N]).
Proof.
  revert x acc. induction fuel as [|fuel IH]; intros x acc Hx Hf; [done|].
  simpl dec_aux. destruct (Z.ltb_spec x 10) as [Hlt|Hge].
  - exists [digitChar (x mod 10)]. rewrite Z.mod_small by lia.
    split_and!; [done|done| | |by intros ->].
    + unfold mathInt. simpl. rewrite digitValue_digitChar; lia.
    + intros Hpos. split.
      * constructor; [|done]. apply digitChar_digit. lia.
      * intros tl [= E _]. unfold digitChar in E. lia.
  - rewrite Nat2Z.inj_succ, Z.pow_succ_r in Hx by lia.
    assert (1 ≤ x / 10) by (apply Z.div_le_lower_bound; lia).
    assert (x / 10 < 2 ^ Z.of_nat fuel) by (apply Z.div_lt_upper_bound; lia).
    destruct (IH (x / 10) (digitChar (x mod 10) :: acc)) as (ds & E & Hne & Hm & Hz & _).
    { lia. }
    { intros ->. simpl in *. lia. }
    pose proof (Z.mod_pos_bound x 10 ltac:(lia)).
    exists (ds ++ [digitChar (x mod 10)]). split_and!.
    + by rewrite E, <- app_assoc.
    + by destruct ds.
    + rewrite mathInt_snoc, Hm, digitValue_digitChar by lia.
      pose proof (Z.div_mod x 10 ltac:(lia)). lia.
    + intros _. apply nlz_snoc; [apply Hz; lia|done|]. apply digitChar_digit. lia.
    + lia.
Qed.

Lemma dec_spec x :
  0 ≤ x →
  dec x ≠ [] ∧ mathInt (dec x) = x ∧ (0 < x → nlz (dec x)) ∧ (x = 0 → dec x = [48%N]).
Proof.
  intros Hx. unfold dec.
  destruct (dec_aux_spec (S (Z.to_nat (Z.log2 x))) x []) as (ds & E & H); [|done|].
  - split; [done|]. rewrite Nat2Z.inj_succ, Z2Nat.id by apply Z.log2_nonneg.
    destruct (decide (x = 0)) as [->|]; [done|].
    apply Z.log2_spec. lia.
  - rewrite E, app_nil_r. done.
Qed.

Lemma dec_unique x ds : 0 < x → nlz ds → mathInt ds = x → ds = dec x.
Proof.
  intros Hx Hn E. destruct (dec_spec x) as (_ & E' & Hn' & _); [lia|].
  apply nlz_unique; [done|by apply Hn'|by rewrite E'].
Qed.

Lemma mathInt_zeros ds m :
  mathInt (ds ++ replicate m 48%N) = mathInt ds * 10 ^ Z.of_nat m.
Proof.
  induction m as [|m IH]; [simpl; rewrite app_nil_r; lia|].
  rewrite replicate_S_end, app_assoc, mathInt_snoc, IH.
  rewrite Nat2Z.inj_succ, Z.pow_succ_r by lia. unfold digitValue. lia.
Qed.

Lemma dec_pow10 s m :
  0 < s → dec (s * 10 ^ Z.of_nat m) = dec s ++ replicate m 48%N.
Proof.
  intros Hs. destruct (dec_spec s) as (Hne & E & Hn & _); [lia|].
  destruct (Hn Hs) as [Hds Hz].
  symmetry. apply dec_unique.
  - apply Z.mul_pos_pos; [done|]. apply Z.pow_pos_nonneg; lia.
  - split.
    + apply Forall_app. split; [done|]. by apply Forall_replicate.
    + intros tl Etl. destruct (dec s) as [|d ds]; [done|].
      simpl in Etl. injection Etl as -> _. by apply (Hz ds).
  - by rewrite mathInt_zeros, E.
Qed.

Lemma dec_length x : 0 < x < 10 ^ 21 → (length (dec x) ≤ 21)%nat.
Proof.
  intros Hx. destruct (dec_spec x) as (Hne & E & Hn & _); [lia|].
  pose proof (mathInt_lower (dec x) (Hn ltac:(lia)) Hne) as Hl. rewrite E in Hl.
  destruct (decide (length (dec x) ≤ 21)%nat) as [|Hgt]; [done|].
  assert (10 ^ 21 ≤ 10 ^ (Z.of_nat (length (dec x)) - 1)); [|lia].
  apply Z.pow_le_mono_r; lia.
Qed.

End Decimal.

(** ** Facts about Numbers *)

Section Numbers.

Lemma roundF64_small x : x < 2 ^ 53 → roundF64 x = Finite x.
Proof. intros Hx. unfold roundF64. by rewrite (proj2 (Z.ltb_lt _ _) Hx). Qed.

Lemma roundF64_large x y : 2 ^ 53 ≤ x → roundF64 x = Finite y → 2 ^ 53 ≤ y.
Proof.
  intros Hx. unfold roundF64. rewrite (proj2 (Z.ltb_ge _ _) Hx).
  set (e := Z.log2 x - 52). set (q := x / 2 ^ e). set (r := x mod 2 ^ e).
  set (q' := if 2 * r <? 2 ^ e then q
             else if 2 ^ e <? 2 * r then q + 1 else if Z.even q then q else q + 1).
  assert (53 ≤ Z.log2 x) as Hlog by (apply Z.log2_le_pow2; lia).
  assert (2 ≤ 2 ^ e) as He.
  { change 2 with (2 ^ 1) at 1. apply Z.pow_le_mono_r; lia. }
  assert (2 ^ 52 ≤ q) as Hq.
  { apply Z.div_le_lower_bound; [lia|].
    rewrite Z.mul_comm, <- Z.pow_add_r by lia.
    replace (52 + e) with (Z.log2 x) by lia. apply Z.log2_spec. lia. }
  assert (q ≤ q') as Hq'.
  { unfold q'. repeat case_match; lia. }
  destruct (q' * 2 ^ e <? 2 ^ 1024); [|done].
  intros [= <-]. nia.
Qed.

Lemma roundF64_inv v x : roundF64 v = Finite x → x < 2 ^ 53 → v = x.
Proof.
  intros E Hx. destruct (Z.lt_ge_cases v (2 ^ 53)) as [Hv|Hv].
  - rewrite roundF64_small in E by done. by injection E.
  - pose proof (roundF64_large _ _ Hv E). lia.
Qed.

Lemma pick_safe x m s :
  x < 2 ^ 53 → pick x m = Some s → 0 < s ∧ s * 10 ^ Z.of_nat m = x.
Proof.
  intros Hx. unfold pick.
  set (p := 10 ^ Z.of_nat m).
  assert (∀ s, (0 <? s) && represents (s * p) x = true → 0 < s ∧ s * p = x) as Hok.
  { intros s' [Hs Hr]%andb_true_iff. apply Z.ltb_lt in Hs.
    unfold represents in Hr. apply bool_decide_eq_true in Hr.
    split; [done|]. by apply roundF64_inv. }
  destruct (x mod p =? 0).
  - destruct ((0 <? x / p) && _) eqn:E; [|done]. intros [= <-]. by apply Hok.
  - destruct ((0 <? x / p) && _) eqn:E1, ((0 <? x / p + 1) && _) eqn:E2;
      [|intros [= <-]; by apply Hok..|done].
    destruct (_ || _); intros [= <-]; by apply Hok.
Qed.

Lemma shortest_safe x m s m' :
  0 < x < 2 ^ 53 → shortest x m = (s, m') → 0 < s ∧ s * 10 ^ Z.of_nat m' = x.
Proof.
  intros Hx. induction m as [|m IH]; simpl.
  - destruct (pick x 0) as [s0|] eqn:E.
    + intros [= <- <-]. apply pick_safe; [lia|done].
    + intros [= <- <-]. simpl. lia.
  - destruct (pick x (S m)) as [s0|] eqn:E; [|done].
    intros [= <- <-]. apply pick_safe; [lia|done].
Qed.

Lemma toString_safe x : 0 ≤ x ≤ 2 ^ 53 → toString (Finite x) = dec x.
Proof.
  intros Hx.
  destruct (decide (x = 0)) as [->|Hx0]; [done|].
  destruct (decide (x = 2 ^ 53)) as [->|Hx1]; [by vm_compute|].
  unfold toString. rewrite (proj2 (Z.eqb_neq _ _) Hx0).
  destruct (shortest x (length (dec x))) as [s m] eqn:E.
  apply shortest_safe in E as [Hs <-]; [|lia].
  rewrite dec_pow10 by done.
  assert (length (dec s) + m ≤ 21)%nat as Hlen.
  { rewrite <- (length_replicate m 48%N), <- length_app, <- dec_pow10 by done.
    apply dec_length. lia. }
  by rewrite (proj2 (Nat.leb_le _ _) Hlen).
Qed.

Lemma parseInt10_digits ds :
  digits ds → mathInt ds < 2 ^ 53 → parseInt10 (Some ds) = Finite (mathInt ds).
Proof.
  intros [Hne Hds] Hlt. unfold parseInt10.
  rewrite digitPrefix_digits, decide_False by done.
  by apply roundF64_small.
Qed.

Lemma add1_safe x : x < 2 ^ 53 → add1 (Finite x) = Finite (x + 1).
Proof.
  intros Hx. simpl.
  destruct (decide (x + 1 = 2 ^ 53)) as [->|]; [by vm_compute|].
  apply roundF64_small. lia.
Qed.

End Numbers.

(** ** The version bumper *)

Section Bumper.

Lemma bumpSemver_matched v a b c suf part :
  triple v a b c suf →
  bumpSemver v part =
    let major := parseInt10 (Some a) in
    let minor := parseInt10 (Some b) in
    let patch := parseInt10 (Some c) in
    match default Minor part with
    | Major => toString (add1 major) ++ js "." ++ toString (Finite 0) ++ js "." ++ toString (Finite 0)
    | Minor => toString major ++ js "." ++ toString (add1 minor) ++ js "." ++ toString (Finite 0)
    | Patch => toString major ++ js "." ++ toString minor ++ js "." ++ toString (add1 patch)
    end.
Proof.
  intros Ht. unfold bumpSemver. rewrite (exec_semverRe_Some _ _ _ _ _ Ht).
  simpl. by destruct (default Minor part).
Qed.

Lemma render_triple x y z :
  0 ≤ x → 0 ≤ y → 0 ≤ z → triple (render (x, y, z)) (dec x) (dec y) (dec z) [].
Proof.
  intros Hx Hy Hz. unfold render. split; [by rewrite app_nil_r|].
  assert (∀ n, 0 ≤ n → digits (dec n)) as Hd.
  { intros n Hn. destruct (dec_spec n Hn) as (Hne & _ & Hpos & Hzero).
    split; [done|]. destruct (decide (n = 0)) as [->|].
    - rewrite Hzero by done. by constructor.
    - apply Hpos. lia. }
  split_and!; [by apply Hd..|by left].
Qed.

(** C1, as amended. For every string [v] made of three runs of digits
    [a], [b], [c] separated by dots and followed by nothing or by a dot
    or hyphen and code units none of which is a line terminator, with
    the three components at most [Number.MAX_SAFE_INTEGER], and every
    category (minor when left out): [bumpSemver] returns the components
    after the documented arithmetic, printed in decimal and joined by
    dots, and that result is a bare triple with no suffix. *)
Theorem bumpSemver_safe v a b c suf part :
  triple v a b c suf →
  mathInt a ≤ MAX_SAFE_INTEGER →
  mathInt b ≤ MAX_SAFE_INTEGER →
  mathInt c ≤ MAX_SAFE_INTEGER →
  ∃ x y z,
    bump (default Minor part) (mathInt a, mathInt b, mathInt c) = (x, y, z) ∧
    bumpSemver v part = render (x, y, z) ∧
    triple (bumpSemver v part) (dec x) (dec y) (dec z) [].
Proof.
  unfold MAX_SAFE_INTEGER. intros Ht Ha Hb Hc.
  set (t := bump (default Minor part) (mathInt a, mathInt b, mathInt c)).
  pose proof Ht as (_ & Hda & Hdb & Hdc & _).
  pose proof (mathInt_nonneg a (proj2 Hda)).
  pose proof (mathInt_nonneg b (proj2 Hdb)).
  pose proof (mathInt_nonneg c (proj2 Hdc)).
  assert (bumpSemver v part = render t) as ->.
  { rewrite (bumpSemver_matched _ _ _ _ _ _ Ht). cbv zeta.
    rewrite !parseInt10_digits by (done || lia).
    unfold t, render, bump.
    destruct (default Minor part); rewrite ?add1_safe by lia;
      rewrite !toString_safe by lia; done. }
  destruct t as [[x y] z] eqn:E. exists x, y, z. split_and!; [done..|].
  apply render_triple; unfold t, bump in E; destruct (default Minor part);
    injection E as <- <- <-; lia.
Qed.

Lemma bumpSemver_safe_witness :
  ∃ x y z,
    bump Minor (1, 2, 3) = (x, y, z) ∧
    bumpSemver (js "1.2.3-beta.1") None = render (x, y, z) ∧
    triple (bumpSemver (js "1.2.3-beta.1") None) (dec x) (dec y) (dec z) [].
Proof.
  apply (bumpSemver_safe (js "1.2.3-beta.1") (js "1") (js "2") (js "3")
           (js "-beta.1") None).
  - split; [reflexivity|].
    split_and!; try (split; [done|by repeat constructor]).
    right. eexists _, _. split_and!; [reflexivity|by right|by repeat constructor].
  - by vm_compute.
  - by vm_compute.
  - by vm_compute.
Defined.

(** C1 as stated fails: a major component of [2^53] is a numeric triple,
    yet adding one to it as a Number gives [2^53] back, so the major
    bump of [9007199254740992.0.0] is that same string and not
    [9007199254740993.0.0]. *)
Lemma bumpSemver_major_unsafe :
  triple (js "9007199254740992.0.0") (js "9007199254740992") (js "0") (js "0") [] ∧
  bumpSemver (js "9007199254740992.0.0") (Some Major) = js "9007199254740992.0.0" ∧
  render (bump Major (mathInt (js "9007199254740992"), mathInt (js "0"), mathInt (js "0")))
    = js "9007199254740993.0.0" ∧
  bumpSemver (js "9007199254740992.0.0") (Some Major) ≠
    render (bump Major (mathInt (js "9007199254740992"), mathInt (js "0"), mathInt (js "0"))).
Proof.
  split_and!.
  - split; [reflexivity|].
    split_and!; try (split; [done|by repeat constructor]). by left.
  - by vm_compute.
  - by vm_compute.
  - by vm_compute.
Qed.

(** A line terminator in the suffix makes the pattern fail, and the
    fallback is returned. *)
Example bumpSemver_suffix_newline :
  bumpSemver (js "1.2.3-a" ++ [10%N] ++ js "b") None = js "1.0.0".
Proof. by vm_compute. Qed.

(** Components too large for a double print as [Infinity]; large ones
    print in exponential form. *)
Example bumpSemver_exponential :
  bumpSemver (js "1.2.1000000000000000000000") (Some Patch) = js "1.2.1e+21".
Proof. by vm_compute. Qed.

(** C3. For every string that is not of the shape the pattern accepts,
    in particular every string with no leading numeric triple, and every
    category, [bumpSemver] does not fail and returns ["1.0.0"]. *)
Theorem bumpSemver_fallback v part :
  ¬ wellFormed v → bumpSemver v part = js "1.0.0".
Proof.
  intros Hv. unfold bumpSemver. by rewrite exec_semverRe_None.
Qed.

Lemma wellFormed_leadingTriple v : wellFormed v → leadingTriple v.
Proof.
  intros (a & b & c & suf & -> & Ha & Hb & Hc & _). by exists a, b, c, suf.
Qed.

(** In particular the fallback is returned for every string with no
    leading numeric triple. *)
Corollary bumpSemver_no_leading_triple v part :
  ¬ leadingTriple v → bumpSemver v part = js "1.0.0".
Proof.
  intros H. unfold bumpSemver. rewrite exec_semverRe_None; [done|].
  intros Hw. by apply H, wellFormed_leadingTriple.
Qed.

(** A leading triple is not enough: what follows it has to be a suffix. *)
Example bumpSemver_trailing_letter :
  bumpSemver (js "1.2.3x") None = js "1.0.0".
Proof. by vm_compute. Qed.

Lemma wellFormed_exec v : wellFormed v → exec semverRe 3 v ≠ None.
Proof. intros (a & b & c & suf & Ht). by rewrite (exec_semverRe_Some _ _ _ _ _ Ht). Qed.

Lemma bumpSemver_fallback_witness :
  ¬ wellFormed (js "invalid") ∧ bumpSemver (js "invalid") (Some Patch) = js "1.0.0".
Proof.
  assert (¬ wellFormed (js "invalid")) as H.
  { intros H%wellFormed_exec. by vm_compute in H. }
  split; [exact H|]. apply (bumpSemver_fallback (js "invalid") (Some Patch) H).
Defined.

End Bumper.

(** ** The registry diff evaluator *)

Section Evaluator.

Implicit Types (previous : option RegistryFile) (r : RegistryFile).
Implicit Types (l : list jsstring) (part : option BumpPart).

Lemma newIds_filter previous l part :
  newIds (calculateNextVersion previous l part) = filter (λ x, x ∉ known previous) l.
Proof.
  unfold calculateNextVersion. simpl. apply list_filter_iff. intros x.
  rewrite elem_of_list_to_set. by destruct previous.
Qed.

Lemma baseVersion_orString previous l part :
  baseVersion (calculateNextVersion previous l part) =
  orString (version <$> previous) (js "1.0.0").
Proof. done. Qed.

Lemma nextVersion_decision previous l part :
  nextVersion (calculateNextVersion previous l part) =
  match newIds (calculateNextVersion previous l part) with
  | [] => baseVersion (calculateNextVersion previous l part)
  | _ :: _ => bumpSemver (baseVersion (calculateNextVersion previous l part)) part
  end.
Proof.
  unfold calculateNextVersion. cbn [nextVersion newIds baseVersion].
  destruct (filter _ l); case_decide; simpl in *; (done || lia).
Qed.

Lemma filter_known_nil (K l : list jsstring) :
  (∀ x, x ∈ l → x ∈ K) → filter (λ x, x ∉ K) l = [].
Proof. intros H. apply filter_none. intros x Hx Hn. by apply Hn, H. Qed.

Lemma removal_filter (K l l' : list jsstring) :
  removal K l l' → filter (λ x, x ∉ K) l = filter (λ x, x ∉ K) l'.
Proof.
  induction 1 as [|x l l' _ IH|x l l' Hx _ IH]; [done| |].
  - rewrite !filter_cons. by rewrite IH.
  - rewrite filter_cons_False by (intros Hn; by apply Hn). done.
Qed.

Lemma version_passes_through r l part :
  version r ≠ [] →
  (∀ x, x ∈ l → x ∈ known (Some r)) →
  nextVersion (calculateNextVersion (Some r) l part) = version r.
Proof.
  intros Hne Hl.
  rewrite nextVersion_decision, newIds_filter, filter_known_nil by done.
  rewrite baseVersion_orString. simpl. by destruct (version r).
Qed.

(** C2. For every previous snapshot or none, every list of local
    identifiers and every category: when no local identifier is outside
    the known set, [newIds] is empty and [nextVersion] is the start
    version unchanged; when some are, [newIds] lists them and
    [nextVersion] is one bump of the start version at that category,
    however many they are. Two local lists that both bring new
    identifiers therefore give the same [nextVersion]. *)
Theorem nextVersion_single_bump previous l l' part :
  newIds (calculateNextVersion previous l part) = filter (λ x, x ∉ known previous) l ∧
  baseVersion (calculateNextVersion previous l part) = startVersion previous ∧
  nextVersion (calculateNextVersion previous l part) =
    match filter (λ x, x ∉ known previous) l with
    | [] => startVersion previous
    | _ :: _ => bumpSemver (startVersion previous) part
    end ∧
  match filter (λ x, x ∉ known previous) l, filter (λ x, x ∉ known previous) l' with
  | _ :: _, _ :: _ =>
      nextVersion (calculateNextVersion previous l part) =
      nextVersion (calculateNextVersion previous l' part)
  | _, _ => True
  end.
Proof.
  assert (∀ k, baseVersion (calculateNextVersion previous k part) = startVersion previous)
    as Hbase.
  { intros k. rewrite baseVersion_orString. destruct previous as [r|]; [|done].
    simpl. by destruct (version r). }
  assert (∀ k, nextVersion (calculateNextVersion previous k part) =
               match filter (λ x, x ∉ known previous) k with
               | [] => startVersion previous
               | _ :: _ => bumpSemver (startVersion previous) part
               end) as Hnext.
  { intros k. by rewrite nextVersion_decision, newIds_filter, Hbase. }
  split_and!; [apply newIds_filter|apply Hbase|apply Hnext|].
  rewrite (Hnext l), (Hnext l').
  destruct (filter _ l); [done|]. by destruct (filter _ l').
Qed.

(** C4. [newIds] is the list of local identifiers filtered to those that
    are not among the identifiers of the previous snapshot (none when
    there is no snapshot): it is a sublist of the local list, so the
    order is kept, and an identifier that is kept occurs as many times
    as it does in the local list. *)
Theorem newIds_filter_known previous l part :
  newIds (calculateNextVersion previous l part) = filter (λ x, x ∉ known previous) l ∧
  sublist (newIds (calculateNextVersion previous l part)) l ∧
  ∀ x, occurrences x (newIds (calculateNextVersion previous l part)) =
       if decide (x ∈ known previous) then O else occurrences x l.
Proof.
  rewrite newIds_filter. split_and!; [done|apply sublist_filter|].
  intros x. unfold occurrences. induction l as [|y l IH]; [by destruct (decide _)|].
  rewrite (filter_cons (λ x, x ∉ known previous)).
  rewrite (filter_cons (λ y, y = x) y l).
  destruct (decide (y ∉ known previous)) as [Hy|Hy].
  - rewrite (filter_cons (λ y, y = x)).
    destruct (decide (y = x)) as [->|]; simpl; rewrite IH; [|done].
    by destruct (decide (x ∈ known previous)).
  - rewrite IH. destruct (decide (y = x)) as [->|]; [|done].
    by destruct (decide (x ∈ known previous)).
Qed.

(** C5 as stated fails: a snapshot that is present with the empty string
    as its version does not have that string as [baseVersion]. *)
Lemma baseVersion_empty_not_verbatim :
  baseVersion (calculateNextVersion (Some {| version := []; templates := [] |}) [] None)
  ≠ version {| version := []; templates := [] |}.
Proof. by vm_compute. Qed.

(** C5, as amended. [baseVersion] is ["1.0.0"] when there is no previous
    snapshot; when there is one it is the version of the snapshot as it
    stands, whatever its shape, unless that version is the empty string,
    in which case it is ["1.0.0"]. *)
Theorem baseVersion_spec previous l part :
  baseVersion (calculateNextVersion previous l part) =
  match previous with
  | None => js "1.0.0"
  | Some r =>
      match version r with
      | [] => js "1.0.0"
      | _ :: _ => version r
      end
  end.
Proof.
  rewrite baseVersion_orString. destruct previous as [r|]; [|done].
  simpl. by destruct (version r).
Qed.

(** C6. When [l'] is [l] with identifiers of the known set taken out,
    both give the same [nextVersion] and the same [newIds]; no known
    identifier is in [newIds]; and when every local identifier is known,
    [nextVersion] is [baseVersion] and [newIds] is empty. *)
Theorem removal_invariance previous l l' part :
  removal (known previous) l l' →
  nextVersion (calculateNextVersion previous l part) =
    nextVersion (calculateNextVersion previous l' part) ∧
  newIds (calculateNextVersion previous l part) =
    newIds (calculateNextVersion previous l' part) ∧
  (∀ x, x ∈ known previous → x ∉ newIds (calculateNextVersion previous l part)) ∧
  ((∀ x, x ∈ l → x ∈ known previous) →
   nextVersion (calculateNextVersion previous l part) =
     baseVersion (calculateNextVersion previous l part) ∧
   newIds (calculateNextVersion previous l part) = []).
Proof.
  intros Hr.
  assert (newIds (calculateNextVersion previous l part) =
          newIds (calculateNextVersion previous l' part)) as E.
  { rewrite !newIds_filter. by apply removal_filter. }
  split_and!.
  - rewrite !nextVersion_decision, <- E. rewrite !baseVersion_orString. done.
  - done.
  - intros x Hx. rewrite newIds_filter, list_elem_of_filter. by intros [Hn _].
  - intros Hl. rewrite nextVersion_decision, newIds_filter, filter_known_nil by done.
    done.
Qed.

Lemma removal_invariance_witness :
  removal (known (Some {| version := js "1.3.0";
             templates := [ {| id := js "homepage" |};
                            {| id := js "old-template" |} ] |})) [js "homepage"; js "old-template"] [js "homepage"] ∧
  nextVersion (calculateNextVersion (Some {| version := js "1.3.0";
             templates := [ {| id := js "homepage" |};
                            {| id := js "old-template" |} ] |}) [js "homepage"; js "old-template"] None) =
    nextVersion (calculateNextVersion (Some {| version := js "1.3.0";
             templates := [ {| id := js "homepage" |};
                            {| id := js "old-template" |} ] |}) [js "homepage"] None) ∧
  newIds (calculateNextVersion (Some {| version := js "1.3.0";
             templates := [ {| id := js "homepage" |};
                            {| id := js "old-template" |} ] |}) [js "homepage"; js "old-template"] None) =
    newIds (calculateNextVersion (Some {| version := js "1.3.0";
             templates := [ {| id := js "homepage" |};
                            {| id := js "old-template" |} ] |}) [js "homepage"] None) ∧
  (∀ x, x ∈ known (Some {| version := js "1.3.0";
             templates := [ {| id := js "homepage" |};
                            {| id := js "old-template" |} ] |}) →
        x ∉ newIds (calculateNextVersion (Some {| version := js "1.3.0";
             templates := [ {| id := js "homepage" |};
                            {| id := js "old-template" |} ] |}) [js "homepage"; js "old-template"] None)) ∧
  ((∀ x, x ∈ [js "homepage"; js "old-template"] → x ∈ known (Some {| version := js "1.3.0";
             templates := [ {| id := js "homepage" |};
                            {| id := js "old-template" |} ] |})) →
   nextVersion (calculateNextVersion (Some {| version := js "1.3.0";
             templates := [ {| id := js "homepage" |};
                            {| id := js "old-template" |} ] |}) [js "homepage"; js "old-template"] None) =
     baseVersion (calculateNextVersion (Some {| version := js "1.3.0";
             templates := [ {| id := js "homepage" |};
                            {| id := js "old-template" |} ] |}) [js "homepage"; js "old-template"] None) ∧
   newIds (calculateNextVersion (Some {| version := js "1.3.0";
             templates := [ {| id := js "homepage" |};
                            {| id := js "old-template" |} ] |}) [js "homepage"; js "old-template"] None) = []).
Proof.
  assert (removal (known (Some {| version := js "1.3.0";
             templates := [ {| id := js "homepage" |};
                            {| id := js "old-template" |} ] |})) [js "homepage"; js "old-template"] [js "homepage"]) as H.
  { apply removal_keep, removal_drop; [|apply removal_nil].
    simpl. apply elem_of_cons. right. apply elem_of_cons. by left. }
  split; [exact H|].
  exact (removal_invariance (Some {| version := js "1.3.0";
             templates := [ {| id := js "homepage" |};
                            {| id := js "old-template" |} ] |}) [js "homepage"; js "old-template"] [js "homepage"] None H).
Defined.

(** C7 as stated fails: for the snapshot whose version is the empty
    string, the no-op evaluation returns ["1.0.0"], not that version. *)
Lemma noop_empty_version :
  nextVersion (calculateNextVersion (Some {| version := []; templates := [] |})
                 (id <$> templates {| version := []; templates := [] |}) None)
  ≠ version {| version := []; templates := [] |}.
Proof. by vm_compute. Qed.

(** C7, as amended. Evaluating a snapshot against the list of its own
    identifiers gives an empty [newIds] and, for every category, a
    [nextVersion] equal to the version of the snapshot when that version
    is not the empty string, and ["1.0.0"] when it is. *)
Theorem noop_idempotent r part :
  newIds (calculateNextVersion (Some r) (id <$> templates r) part) = [] ∧
  nextVersion (calculateNextVersion (Some r) (id <$> templates r) part) =
    match version r with
    | [] => js "1.0.0"
    | _ :: _ => version r
    end.
Proof.
  assert (newIds (calculateNextVersion (Some r) (id <$> templates r) part) = []) as E.
  { rewrite newIds_filter. by apply filter_known_nil. }
  split; [done|].
  rewrite nextVersion_decision, E, baseVersion_orString. simpl.
  by destruct (version r).
Qed.

(** C8. With no previous snapshot, two local identifiers [a] and [b],
    and the category left out (or given as minor): [baseVersion] is
    ["1.0.0"], [nextVersion] is ["1.1.0"], [newIds] is [[a; b]]. *)
Theorem bootstrap a b :
  (baseVersion (calculateNextVersion None [a; b] None) = js "1.0.0" ∧
   nextVersion (calculateNextVersion None [a; b] None) = js "1.1.0" ∧
   newIds (calculateNextVersion None [a; b] None) = [a; b]) ∧
  (baseVersion (calculateNextVersion None [a; b] (Some Minor)) = js "1.0.0" ∧
   nextVersion (calculateNextVersion None [a; b] (Some Minor)) = js "1.1.0" ∧
   newIds (calculateNextVersion None [a; b] (Some Minor)) = [a; b]).
Proof.
  assert (∀ part, newIds (calculateNextVersion None [a; b] part) = [a; b]) as E.
  { intros part. rewrite newIds_filter. simpl.
    rewrite !filter_cons_True by apply not_elem_of_nil. done. }
  split; (split_and!; [done| |apply E]);
    rewrite nextVersion_decision, E, baseVersion_orString; by vm_compute.
Qed.

(** C9. When the snapshot is present with the empty string as version,
    [baseVersion] is ["1.0.0"], as with no snapshot; [nextVersion] is
    then ["1.0.0"] or its bump, and never the empty string. *)
Theorem empty_version_falls_back (ts : list Template) l part :
  baseVersion (calculateNextVersion (Some {| version := []; templates := ts |}) l part)
    = js "1.0.0" ∧
  baseVersion (calculateNextVersion (Some {| version := []; templates := ts |}) l part)
    = baseVersion (calculateNextVersion None l part) ∧
  nextVersion (calculateNextVersion (Some {| version := []; templates := ts |}) l part)
    = match newIds (calculateNextVersion (Some {| version := []; templates := ts |}) l part)
      with
      | [] => js "1.0.0"
      | _ :: _ => bumpSemver (js "1.0.0") part
      end ∧
  nextVersion (calculateNextVersion (Some {| version := []; templates := ts |}) l part)
    ≠ [].
Proof.
  split_and!; [done|done|by rewrite nextVersion_decision|].
  rewrite nextVersion_decision, newIds_filter, baseVersion_orString.
  destruct (filter _ l); [done|].
  destruct part as [[]|]; by vm_compute.
Qed.

(** C10. When the version of the previous snapshot is not the empty
    string and every local identifier is known, [nextVersion] is that
    version unchanged, whatever its shape; when the version is not of
    the shape the pattern accepts, neither is [nextVersion]. *)
Theorem malformed_version_passes_through r l part :
  version r ≠ [] →
  ¬ wellFormed (version r) →
  (∀ x, x ∈ l → x ∈ known (Some r)) →
  nextVersion (calculateNextVersion (Some r) l part) = version r ∧
  ¬ wellFormed (nextVersion (calculateNextVersion (Some r) l part)).
Proof.
  intros Hne Hw Hl.
  assert (nextVersion (calculateNextVersion (Some r) l part) = version r) as ->.
  { by apply version_passes_through. }
  done.
Qed.

Lemma malformed_version_passes_through_witness :
  nextVersion (calculateNextVersion
                 (Some {| version := js "invalid";
                          templates := [ {| id := js "homepage" |} ] |})
                 [js "homepage"] None) = js "invalid" ∧
  ¬ wellFormed (nextVersion (calculateNextVersion
                 (Some {| version := js "invalid";
                          templates := [ {| id := js "homepage" |} ] |})
                 [js "homepage"] None)).
Proof.
  apply (malformed_version_passes_through
           {| version := js "invalid"; templates := [ {| id := js "homepage" |} ] |}
           [js "homepage"] None).
  - by vm_compute.
  - intros H%wellFormed_exec. by vm_compute in H.
  - intros x Hx. exact Hx.
Defined.

End Evaluator.

(** ** The cases of the test suite

    The assertions of the script that need no network, evaluated on the
    embedding. *)

Section TestSuite.

Example test_minor_from_1_0_0 : bumpSemver (js "1.0.0") (Some Minor) = js "1.1.0".
Proof. by vm_compute. Qed.

Example test_minor_from_1_1_0 : bumpSemver (js "1.1.0") (Some Minor) = js "1.2.0".
Proof. by vm_compute. Qed.

Example test_patch_from_1_1_0 : bumpSemver (js "1.1.0") (Some Patch) = js "1.1.1".
Proof. by vm_compute. Qed.

Example test_major_from_1_1_0 : bumpSemver (js "1.1.0") (Some Major) = js "2.0.0".
Proof. by vm_compute. Qed.

Example test_invalid_version : bumpSemver (js "invalid") (Some Minor) = js "1.0.0".
Proof. by vm_compute. Qed.

Example test_empty_string : bumpSemver [] (Some Minor) = js "1.0.0".
Proof. by vm_compute. Qed.

Example test_prerelease : bumpSemver (js "1.2.3-beta.1") (Some Minor) = js "1.3.0".
Proof. by vm_compute. Qed.

Example test_fresh_start :
  calculateNextVersion None [js "template-a"; js "template-b"] (Some Minor)
  = result "1.0.0" "1.1.0" ["template-a"; "template-b"]%string.
Proof. by vm_compute. Qed.

Example test_no_new_templates :
  calculateNextVersion (registry "1.5.0" ["homepage"; "jellyfin-server"]%string)
    [js "homepage"; js "jellyfin-server"] (Some Minor)
  = result "1.5.0" "1.5.0" [].
Proof. by vm_compute. Qed.

Example test_one_new_template :
  calculateNextVersion (registry "1.1.0" ["homepage"; "jellyfin-server"]%string)
    [js "homepage"; js "jellyfin-server"; js "new-template"] (Some Minor)
  = result "1.1.0" "1.2.0" ["new-template"]%string.
Proof. by vm_compute. Qed.

Example test_multiple_new_templates :
  calculateNextVersion (registry "2.0.0" ["homepage"]%string)
    [js "homepage"; js "new-a"; js "new-b"; js "new-c"] (Some Minor)
  = result "2.0.0" "2.1.0" ["new-a"; "new-b"; "new-c"]%string.
Proof. by vm_compute. Qed.

Example test_patch_bump :
  calculateNextVersion (registry "1.1.0" ["homepage"]%string)
    [js "homepage"; js "new-template"] (Some Patch)
  = result "1.1.0" "1.1.1" ["new-template"]%string.
Proof. by vm_compute. Qed.

Example test_template_removed :
  calculateNextVersion (registry "1.3.0" ["homepage"; "old-template"]%string)
    [js "homepage"] (Some Minor)
  = result "1.3.0" "1.3.0" [].
Proof. by vm_compute. Qed.

Example test_empty_live_templates :
  calculateNextVersion (registry "1.0.0" []) [js "template-a"] (Some Minor)
  = result "1.0.0" "1.1.0" ["template-a"]%string.
Proof. by vm_compute. Qed.

(** Duplicates in the local list are passed through. *)
Example duplicates_kept :
  newIds (calculateNextVersion (registry "1.0.0" ["a"]%string)
            [js "b"; js "a"; js "b"] None) = [js "b"; js "b"].
Proof. by vm_compute. Qed.

End TestSuite.

(** ** Numbers outside the safe range *)

Section LargeNumbers.

Example parseInt10_tie_to_even :
  parseInt10 (Some (js "9007199254740993")) = Finite 9007199254740992 ∧
  parseInt10 (Some (js "9007199254740995")) = Finite 9007199254740996.
Proof. by vm_compute. Qed.

Example toString_2_pow_64 :
  toString (parseInt10 (Some (js "18446744073709551616"))) = js "18446744073709552000".
Proof. by vm_compute. Qed.

Example toString_1e21 :
  toString (parseInt10 (Some (js "1000000000000000000000"))) = js "1e+21".
Proof. by vm_compute. Qed.

Example toString_2_pow_70 :
  toString (parseInt10 (Some (js "1180591620717411303424"))) = js "1.1805916207174113e+21".
Proof. by vm_compute. Qed.

Example toString_MAX_VALUE :
  toString (Finite ((2 ^ 53 - 1) * 2 ^ 971)) = js "1.7976931348623157e+308".
Proof. by vm_compute. Qed.

Example roundF64_overflow :
  roundF64 (2 ^ 1024 - 2 ^ 970 - 1) = Finite ((2 ^ 53 - 1) * 2 ^ 971) ∧
  roundF64 (2 ^ 1024 - 2 ^ 970) = Infinity.
Proof. by vm_compute. Qed.

End LargeNumbers.

(** ** Facts about [JSON.stringify] and [assertEqual] *)

Section Stringify.

Lemma hexValue_hexDigit d : (d < 16)%N → hexValue (hexDigit d) = d.
Proof.
  intros Hd. unfold hexValue, hexDigit.
  destruct (N.ltb_spec d 10).
  - destruct (N.ltb_spec (48 + d) 58); lia.
  - destruct (N.ltb_spec (87 + d) 58); lia.
Qed.

Lemma hex_round_trip c :
  (c < 65536)%N →
  (4096 * hexValue (hexDigit (c / 4096 mod 16)) + 256 * hexValue (hexDigit (c / 256 mod 16))
   + 16 * hexValue (hexDigit (c / 16 mod 16)) + hexValue (hexDigit (c mod 16)))%N = c.
Proof.
  intros Hc. rewrite !hexValue_hexDigit by (apply N.mod_upper_bound; lia).
  zify. Z.to_euclidean_division_equations. lia.
Qed.

Lemma unquoteBody_raw c t :
  c ≠ 34%N → c ≠ 92%N →
  unquoteBody (c :: t) = (λ '(s, r), (c :: s, r)) <$> unquoteBody t.
Proof.
  intros H1 H2. simpl.
  by rewrite (proj2 (N.eqb_neq _ _) H1), (proj2 (N.eqb_neq _ _) H2).
Qed.

Lemma unquoteBody_escape c t :
  (c < 65536)%N →
  unquoteBody (unicodeEscape c ++ t) = (λ '(s, r), (c :: s, r)) <$> unquoteBody t.
Proof.
  intros Hc. unfold unicodeEscape. cbn [app unquoteBody].
  change (92 =? 34)%N with false. change (92 =? 92)%N with true.
  change (117 =? 117)%N with true. cbv iota.
  by rewrite hex_round_trip.
Qed.

Lemma surrogate_range c :
  isLeadSurrogate c || isTrailSurrogate c = true → (55296 ≤ c < 57344)%N.
Proof.
  unfold isLeadSurrogate, isTrailSurrogate.
  rewrite orb_true_iff, !andb_true_iff, !N.leb_le. lia.
Qed.

Lemma unquoteBody_quoteUnit c t :
  unquoteBody (quoteUnit c ++ t) = (λ '(s, r), (c :: s, r)) <$> unquoteBody t.
Proof.
  unfold quoteUnit.
  destruct (N.eqb_spec c 8) as [->|?]; [done|].
  destruct (N.eqb_spec c 9) as [->|?]; [done|].
  destruct (N.eqb_spec c 10) as [->|?]; [done|].
  destruct (N.eqb_spec c 12) as [->|?]; [done|].
  destruct (N.eqb_spec c 13) as [->|?]; [done|].
  destruct (N.eqb_spec c 34) as [->|?]; [done|].
  destruct (N.eqb_spec c 92) as [->|?]; [done|].
  destruct (_ || _ || _) eqn:E.
  - apply unquoteBody_escape.
    rewrite <- orb_assoc in E. apply orb_true_iff in E as [E%N.ltb_lt|E%surrogate_range]; lia.
  - by apply unquoteBody_raw.
Qed.

Lemma unquoteBody_quoteBody s r :
  unquoteBody (quoteBody s ++ 34%N :: r) = Some (s, r).
Proof.
  remember (length s) as n eqn:Hn.
  assert (length s ≤ n)%nat as Hle by lia. clear Hn.
  revert s Hle. induction n as [|n IH]; intros s Hle.
  { by destruct s; [|simpl in Hle; lia]. }
  destruct s as [|c tl]; [done|]. simpl in Hle.
  assert (unquoteBody ((quoteUnit c ++ quoteBody tl) ++ 34%N :: r) = Some (c :: tl, r)) as Hunit.
  { rewrite <- app_assoc, unquoteBody_quoteUnit, IH by lia. done. }
  simpl quoteBody. destruct (isLeadSurrogate c) eqn:Hc; [|done].
  destruct tl as [|d tl']; [by rewrite app_nil_r in Hunit|].
  destruct (isTrailSurrogate d) eqn:Hd; [|done].
  simpl in Hle.
  assert (55296 ≤ c < 57344)%N by (apply surrogate_range; by rewrite Hc).
  assert (55296 ≤ d < 57344)%N by (apply surrogate_range; rewrite Hd; apply orb_true_r).
  cbn [app]. rewrite unquoteBody_raw, unquoteBody_raw, IH by lia. done.
Qed.

Lemma quote_app_inj s s' r r' : quote s ++ r = quote s' ++ r' → s = s' ∧ r = r'.
Proof.
  unfold quote. cbn [app]. rewrite <- !app_assoc. cbn [app]. intros [= E].
  pose proof (unquoteBody_quoteBody s r) as H. rewrite E, unquoteBody_quoteBody in H.
  by injection H as -> ->.
Qed.

Lemma joinWith_one sep x : joinWith sep [x] = x.
Proof. done. Qed.

Lemma joinWith_more sep x y l :
  joinWith sep (x :: y :: l) = x ++ sep ++ joinWith sep (y :: l).
Proof. done. Qed.

Lemma join_quote_inj l l' r r' :
  joinWith [44%N] (quote <$> l) ++ 93%N :: r = joinWith [44%N] (quote <$> l') ++ 93%N :: r' →
  l = l' ∧ r = r'.
Proof.
  revert l'. induction l as [|x l IH]; intros [|x' l'].
  - by intros [= ->].
  - destruct l'; simpl; done.
  - destruct l; simpl; done.
  - destruct l as [|y l], l' as [|y' l']; rewrite ?fmap_cons, ?fmap_nil,
      ?joinWith_one, ?joinWith_more, <- ?app_assoc.
    + intros [-> [= ->]]%quote_app_inj. done.
    + intros [-> E]%quote_app_inj. done.
    + intros [-> E]%quote_app_inj. done.
    + intros [-> E]%quote_app_inj. cbn [app] in E. injection E as E.
      apply (IH (y' :: l')) in E as [[= -> ->] ->]. done.
Qed.

Lemma stringify_inj v v' : stringify v = stringify v' → v = v'.
Proof.
  destruct v as [s|l], v' as [s'|l']; simpl; try done.
  - intros E.
    destruct (quote_app_inj s s' [] []) as [-> _]; [by rewrite !app_nil_r|done].
  - intros [= E]. by apply join_quote_inj in E as [-> _].
Qed.

End Stringify.

(** X1. [assertEqual] returns without throwing exactly when the two
    values are equal: two strings, or two arrays of strings, have the
    same JSON text only when they are the same, whatever control
    characters, quotes, backslashes or lone surrogates they hold. *)
Theorem assertEqual_passes_iff actual expected message :
  assertEqual actual expected message = Normal ↔ actual = expected.
Proof.
  unfold assertEqual. split.
  - case_decide as H; [done|]. intros _. apply stringify_inj.
    by destruct (decide (stringify actual = stringify expected)).
  - intros ->. by rewrite decide_False by (intros H; by apply H).
Qed.

(** ** Facts about the test runner *)

Section TestRunner.

Implicit Types (tests : list (jsstring * (unit → completion))) (st : Runner).











(** X5. The fourteen tests of the script that need no network all pass:
    the counters are then 14 and 0, nothing has been written to standard
    error, and the summary does not end the process with an error. *)
Theorem syncTests_pass :
  passed (runTests syncTests initial) = Finite 14 ∧
  failed (runTests syncTests initial) = Finite 0 ∧
  filter (λ e, e.1 = Stderr) (console (runTests syncTests initial)) = [] ∧
  (summary (runTests syncTests initial)).2 = None.
Proof. by vm_compute. Qed.

End TestRunner.

(** ** Facts about the identifiers of the local templates *)

Section LocalIdFacts.

Variable p : N → bool.

Lemma matchFrom_class i s :
  matchFrom (Class p) 0 i s =
  match s with
  | [] => None
  | c :: tl =>
      if p c then Some ([], mkState (S i) tl [None])
      else (λ '(skipped, st), (c :: skipped, st)) <$> matchFrom (Class p) 0 (S i) tl
  end.
Proof. destruct s as [|c tl]; [done|]. simpl. by destruct (p c). Qed.

Lemma matchFrom_class_None i s :
  matchFrom (Class p) 0 i s = None → Forall (λ c, p c = false) s.
Proof.
  revert i. induction s as [|c tl IH]; intros i; [done|].
  rewrite matchFrom_class. destruct (p c) eqn:E; [done|].
  destruct (matchFrom (Class p) 0 (S i) tl) as [[??]|] eqn:E'; [done|].
  intros _. constructor; [done|]. by eapply IH.
Qed.

Lemma matchFrom_class_Some i s skipped st :
  matchFrom (Class p) 0 i s = Some (skipped, st) →
  ∃ c, s = skipped ++ c :: rest st ∧ p c = true ∧
       Forall (λ c, p c = false) skipped ∧
       endIndex st = S (i + length skipped).
Proof.
  revert i skipped st. induction s as [|c tl IH]; intros i skipped st; [done|].
  rewrite matchFrom_class. destruct (p c) eqn:E.
  - intros [= <- <-]. exists c. simpl. repeat split; (done || lia).
  - destruct (matchFrom (Class p) 0 (S i) tl) as [[sk st']|] eqn:E'; [|done].
    intros [= <- <-]. apply IH in E' as (c' & -> & Hc' & Hsk & Hi).
    exists c'. simpl. repeat split; (done || lia || by constructor).
Qed.

Lemma bind_unchanged (by_ : jsstring) (s : jsstring) :
  Forall (λ c, p c = false) s → s ≫= (λ c, if p c then by_ else [c]) = s.
Proof. induction 1 as [|c s Hc _ IH]; [done|]. rewrite bind_cons, Hc, IH. done. Qed.

Lemma replaceFrom_class by_ fuel i s :
  (length s < fuel)%nat →
  replaceFrom (Class p) 0 by_ fuel i s = s ≫= (λ c, if p c then by_ else [c]).
Proof.
  revert i s. induction fuel as [|fuel IH]; intros i s Hlen; [lia|].
  simpl replaceFrom. destruct (matchFrom (Class p) 0 i s) as [[skipped st]|] eqn:E.
  - apply matchFrom_class_Some in E as (c & -> & Hc & Hsk & Hi).
    rewrite decide_False by lia. rewrite IH.
    + rewrite bind_app, bind_cons, Hc, (bind_unchanged by_ skipped) by done. done.
    + rewrite length_app in Hlen. simpl in Hlen. lia.
  - apply matchFrom_class_None in E. by rewrite bind_unchanged.
Qed.

End LocalIdFacts.

Lemma replaceAll_idRe s :
  replaceAll idRe 0 (js "-") s = (λ c, if isIdChar c then c else 45%N) <$> s.
Proof.
  unfold replaceAll, idRe. rewrite replaceFrom_class by lia.
  induction s as [|c s IH]; [done|].
  rewrite bind_cons, fmap_cons, IH. by destruct (isIdChar c).
Qed.

(** X6. Replacing with [/[^a-z0-9-]/g] works code unit by code unit:
    each code unit that is not a lowercase letter, a digit or a hyphen
    becomes one hyphen, the others stay where they are, and the length
    of the string does not change. *)
Theorem replace_pointwise s :
  replaceAll idRe 0 (js "-") s = (λ c, if isIdChar c then c else 45%N) <$> s ∧
  length (replaceAll idRe 0 (js "-") s) = length s.
Proof.
  split; [apply replaceAll_idRe|]. by rewrite replaceAll_idRe, length_fmap.
Qed.

(** X7. Whatever [toLowerCase] returns for a directory name, its
    identifier holds lowercase letters, digits and hyphens only and is
    as long as the lowercased name; and the replacement leaves a string
    as it is exactly when the string already holds such code units only,
    so that replacing twice is replacing once. *)
Theorem localId_charset (toLowerCase : jsstring → jsstring) name s :
  Forall (λ c, isIdChar c = true) (localId toLowerCase name) ∧
  length (localId toLowerCase name) = length (toLowerCase name) ∧
  (replaceAll idRe 0 (js "-") s = s ↔ Forall (λ c, isIdChar c = true) s) ∧
  replaceAll idRe 0 (js "-") (replaceAll idRe 0 (js "-") s) = replaceAll idRe 0 (js "-") s.
Proof.
  assert (∀ t, Forall (λ c, isIdChar c = true) (replaceAll idRe 0 (js "-") t)) as Hall.
  { intros t. rewrite replaceAll_idRe. apply Forall_fmap, Forall_true.
    intros c. simpl. by destruct (isIdChar c) eqn:E. }
  assert (∀ t, Forall (λ c, isIdChar c = true) t → replaceAll idRe 0 (js "-") t = t) as Hfix.
  { intros t Ht. rewrite replaceAll_idRe.
    induction Ht as [|c t Hc _ IH]; [done|]. by rewrite fmap_cons, Hc, IH. }
  split_and!.
  - apply Hall.
  - unfold localId. by rewrite replaceAll_idRe, length_fmap.
  - split; [intros <-; apply Hall|apply Hfix].
  - apply Hfix, Hall.
Qed.

(** ** Facts about the version check of the live-registry test *)

Section VersionCheck.

Lemma matches_strictRe i v caps st' :
  matches strictRe (mkState i v caps) st' ↔
  i = O ∧ bare v ∧ st' = mkState (length v) [] caps.
Proof.
  unfold strictRe. split.
  - intros H.
    apply matches_seq in H as (? & [Hi ->]%matches_start & H). simpl in Hi. subst i.
    apply matches_seq in H as (? & (a & ? & Hna & Ha & -> & ->)%matches_plus_class & H).
    apply matches_seq in H as (? & (? & ? & -> & ->%isChar_dot & ->)%matches_class & H).
    apply matches_seq in H as (? & (b & ? & Hnb & Hb & -> & ->)%matches_plus_class & H).
    apply matches_seq in H as (? & (? & ? & -> & ->%isChar_dot & ->)%matches_class & H).
    apply matches_seq in H as
      (? & (c & suf & Hnc & Hc & -> & ->)%matches_plus_class & [He ->]%matches_end).
    simpl in He. subst suf. split; [done|]. split.
    + exists a, b, c. split; [done|]. split_and!; [done..|by left].
    + f_equal. rewrite !length_app; simpl. rewrite !length_app; simpl.
      rewrite !length_app; simpl. lia.
  - intros (-> & (a & b & c & -> & [Hna Ha] & [Hnb Hb] & [Hnc Hc] & _) & ->).
    apply matches_seq. eexists. split; [by apply matches_start|].
    apply matches_seq. eexists. split.
    { apply matches_plus_class. exists a. eexists. split_and!; done. }
    apply matches_seq. eexists. split.
    { apply matches_class. eexists _, _. split_and!; [simpl; done|done|done]. }
    apply matches_seq. eexists. split.
    { apply matches_plus_class. exists b. eexists. split_and!; done. }
    apply matches_seq. eexists. split.
    { apply matches_class. eexists _, _. split_and!; [simpl; done|done|done]. }
    apply matches_seq.
    exists (mkState (length (a ++ js "." ++ b ++ js "." ++ c ++ [])) [] caps).
    split; [|by apply matches_end].
    apply matches_plus_class. exists c, []. split_and!; [done..|].
    f_equal. simpl. rewrite !length_app; simpl. rewrite !length_app; simpl.
    rewrite !length_app; simpl. lia.
Qed.

Lemma exec_strictRe v :
  exec strictRe 0 v =
  match head (run strictRe (mkState O v [None])) with
  | Some _ => Some [Some v]
  | None => None
  end.
Proof.
  unfold exec. rewrite exec_from_unfold. simpl replicate.
  destruct (head (run strictRe (mkState O v [None]))) as [st|] eqn:E.
  - apply head_Some_elem_of, run_sound, matches_strictRe in E as (_ & _ & ->).
    simpl. rewrite Nat.sub_0_r. by rewrite take_ge.
  - destruct v as [|x v]; [done|].
    assert (∀ i s, exec_from strictRe 0 (S i) s = None) as Hlater; [|apply Hlater].
    intros i s. revert i. induction s as [|y s IH]; intros i; rewrite exec_from_unfold.
    + replace (run strictRe _) with (@nil MatchState); [done|].
      symmetry. apply elem_of_nil_inv. intros st' H%run_sound.
      by apply matches_strictRe in H as [? _].
    + replace (run strictRe _) with (@nil MatchState); [apply IH|].
      symmetry. apply elem_of_nil_inv. intros st' H%run_sound.
      by apply matches_strictRe in H as [? _].
Qed.

Lemma exec_strictRe_bare v : bare v → exec strictRe 0 v = Some [Some v].
Proof.
  intros Hb. rewrite exec_strictRe.
  destruct (run strictRe (mkState O v [None])) as [|st l] eqn:E; [|done].
  assert (mkState (length v) [] [None] ∈ run strictRe (mkState O v [None])) as Hin.
  { by apply run_complete, matches_strictRe. }
  rewrite E in Hin. by apply elem_of_nil in Hin.
Qed.

Lemma exec_strictRe_not_bare v : ¬ bare v → exec strictRe 0 v = None.
Proof.
  intros Hb. rewrite exec_strictRe.
  destruct (head (run strictRe (mkState O v [None]))) as [st|] eqn:E; [|done].
  apply head_Some_elem_of, run_sound, matches_strictRe in E as (_ & ? & _). done.
Qed.

Lemma bare_dec v : bare v ∨ ¬ bare v.
Proof.
  destruct (head (run strictRe (mkState O v [None]))) as [st|] eqn:E.
  - left. by apply head_Some_elem_of, run_sound, matches_strictRe in E as (_ & ? & _).
  - right. intros Hb%exec_strictRe_bare. by rewrite exec_strictRe, E in Hb.
Qed.

(** X8. The check at the end of the live-registry test lets a result
    through exactly when its [nextVersion] is three runs of digits
    joined by dots and nothing else; otherwise it throws, with the
    version in the message. *)
Theorem versionCheck_spec (result : Result) :
  (versionCheck result = Normal ↔ bare (nextVersion result)) ∧
  (versionCheck result = Normal ∨
   versionCheck result = Throw (js "Invalid version format: " ++ nextVersion result)).
Proof.
  unfold versionCheck. destruct (bare_dec (nextVersion result)) as [Hb|Hb].
  - rewrite exec_strictRe_bare by done. split; [done|by left].
  - rewrite exec_strictRe_not_bare by done. split; [|by right]. split; [done|]. by intros ?.
Qed.

End VersionCheck.

(** ** More about the version bumper *)

Section BumperMore.

Lemma exec_semverRe_inv v m :
  exec semverRe 3 v = Some m →
  ∃ a b c suf, triple v a b c suf ∧ m = [Some v; Some a; Some b; Some c].
Proof.
  unfold exec. rewrite exec_from_unfold.
  destruct (head (run semverRe (mkState O v (replicate 4 None)))) as [st|] eqn:E.
  - apply head_Some_elem_of, run_sound in E.
    apply matches_semverRe in E as (_ & a & b & c & suf & Ht & ->).
    intros [= <-]. exists a, b, c, suf. split; [done|].
    simpl. rewrite Nat.sub_0_r. by rewrite take_ge.
  - destruct v; [done|]. by rewrite exec_from_semverRe_later.
Qed.

Lemma wellFormed_dec v : wellFormed v ∨ ¬ wellFormed v.
Proof.
  destruct (exec semverRe 3 v) as [m|] eqn:E.
  - left. apply exec_semverRe_inv in E as (a & b & c & suf & Ht & _). by exists a, b, c, suf.
  - right. by intros H%wellFormed_exec.
Qed.

Lemma safe_intro v a b c suf :
  triple v a b c suf →
  mathInt a ≤ MAX_SAFE_INTEGER → mathInt b ≤ MAX_SAFE_INTEGER →
  mathInt c ≤ MAX_SAFE_INTEGER → safe v.
Proof.
  intros Ht Ha Hb Hc a' b' c' suf' Ht'.
  by destruct (triple_unique _ _ _ _ _ _ _ _ _ Ht Ht') as (<- & <- & <- & _).
Qed.

Lemma bumpSemver_components v a b c suf part :
  triple v a b c suf →
  mathInt a ≤ MAX_SAFE_INTEGER → mathInt b ≤ MAX_SAFE_INTEGER →
  mathInt c ≤ MAX_SAFE_INTEGER →
  bumpSemver v part = render (bump (default Minor part) (mathInt a, mathInt b, mathInt c)).
Proof.
  unfold MAX_SAFE_INTEGER. intros Ht Ha Hb Hc.
  pose proof Ht as (_ & Hda & Hdb & Hdc & _).
  pose proof (mathInt_nonneg a (proj2 Hda)).
  pose proof (mathInt_nonneg b (proj2 Hdb)).
  pose proof (mathInt_nonneg c (proj2 Hdc)).
  rewrite (bumpSemver_matched _ _ _ _ _ _ Ht). cbv zeta.
  rewrite !parseInt10_digits by (done || lia).
  unfold render, bump.
  destruct (default Minor part); rewrite ?add1_safe by lia;
    rewrite !toString_safe by lia; done.
Qed.

Lemma render_bare x y z : 0 ≤ x → 0 ≤ y → 0 ≤ z → bare (render (x, y, z)).
Proof. intros. exists (dec x), (dec y), (dec z). by apply render_triple. Qed.

Lemma bumpSemver_bare v part : safe v → bare (bumpSemver v part).
Proof.
  intros Hs. destruct (wellFormed_dec v) as [(a & b & c & suf & Ht)|Hw].
  - destruct (Hs _ _ _ _ Ht) as (Ha & Hb & Hc).
    rewrite (bumpSemver_components _ _ _ _ _ _ Ht Ha Hb Hc).
    pose proof Ht as (_ & Hda & Hdb & Hdc & _).
    pose proof (mathInt_nonneg a (proj2 Hda)).
    pose proof (mathInt_nonneg b (proj2 Hdb)).
    pose proof (mathInt_nonneg c (proj2 Hdc)).
    unfold bump. destruct (default Minor part); apply render_bare; lia.
  - unfold bumpSemver. rewrite exec_semverRe_None by done.
    apply (render_bare 1 0 0); lia.
Qed.

Lemma bare_not_nil v : bare v → v ≠ [].
Proof. intros (a & b & c & -> & [Hna _] & _). by destruct a. Qed.

(** X9. The pattern of [bumpSemver] matches a string exactly when it is
    three runs of digits joined by dots, followed by nothing or by a dot
    or hyphen and code units none of which is a line terminator; the
    match array then holds the whole string and the three runs. *)
Theorem semverRe_accepts v :
  match exec semverRe 3 v with
  | Some m => ∃ a b c suf, triple v a b c suf ∧ m = [Some v; Some a; Some b; Some c]
  | None => ¬ wellFormed v
  end.
Proof.
  destruct (exec semverRe 3 v) as [m|] eqn:E.
  - by apply exec_semverRe_inv.
  - intros (a & b & c & suf & Ht). by rewrite (exec_semverRe_Some _ _ _ _ _ Ht) in E.
Qed.

(** X10. The suffix of a version plays no part: with or without it the
    result is the same, whatever the size of the components. *)
Theorem bumpSemver_suffix_ignored v a b c suf part :
  triple v a b c suf →
  bumpSemver v part = bumpSemver (a ++ js "." ++ b ++ js "." ++ c) part.
Proof.
  intros Ht.
  assert (triple (a ++ js "." ++ b ++ js "." ++ c) a b c []) as Ht'.
  { destruct Ht as (_ & Ha & Hb & Hc & _). split; [by rewrite app_nil_r|].
    split_and!; [done..|by left]. }
  by rewrite (bumpSemver_matched _ _ _ _ _ _ Ht), (bumpSemver_matched _ _ _ _ _ _ Ht').
Qed.

Lemma bumpSemver_suffix_ignored_witness :
  bumpSemver (js "1.2.3-beta.1") (Some Patch) = bumpSemver (js "1.2.3") (Some Patch).
Proof.
  apply (bumpSemver_suffix_ignored (js "1.2.3-beta.1") (js "1") (js "2") (js "3")
           (js "-beta.1") (Some Patch)).
  split; [reflexivity|].
  split_and!; try (split; [done|by repeat constructor]).
  right. eexists _, _. split_and!; [reflexivity|by right|by repeat constructor].
Defined.

(** X11. On the bare string of three safe integers [bumpSemver] is the
    component arithmetic: printing, bumping and reading back agree, so
    bumps can be chained. *)
Theorem bumpSemver_render x y z part :
  0 ≤ x ≤ MAX_SAFE_INTEGER → 0 ≤ y ≤ MAX_SAFE_INTEGER → 0 ≤ z ≤ MAX_SAFE_INTEGER →
  bumpSemver (render (x, y, z)) part = render (bump (default Minor part) (x, y, z)).
Proof.
  intros Hx Hy Hz.
  pose proof (render_triple x y z ltac:(lia) ltac:(lia) ltac:(lia)) as Ht.
  destruct (dec_spec x) as (_ & Ex & _); [lia|].
  destruct (dec_spec y) as (_ & Ey & _); [lia|].
  destruct (dec_spec z) as (_ & Ez & _); [lia|].
  rewrite (bumpSemver_components _ _ _ _ _ part Ht) by (rewrite ?Ex, ?Ey, ?Ez; lia).
  by rewrite Ex, Ey, Ez.
Qed.

Lemma bumpSemver_render_witness :
  bumpSemver (render (1, 9, 9)) (Some Minor) = render (1, 10, 0).
Proof.
  apply (bumpSemver_render 1 9 9 (Some Minor)); by vm_compute.
Defined.

(** X12. When the components of the input are safe integers, or the
    input is not of the accepted shape at all, the result of
    [bumpSemver] is a bare triple and passes the pattern of the version
    check. *)
Theorem bumpSemver_passes_check v part :
  safe v →
  bare (bumpSemver v part) ∧
  exec strictRe 0 (bumpSemver v part) = Some [Some (bumpSemver v part)].
Proof.
  intros Hs. pose proof (bumpSemver_bare v part Hs) as Hb.
  split; [done|]. by apply exec_strictRe_bare.
Qed.

Lemma bumpSemver_passes_check_witness :
  bare (bumpSemver (js "1.2.3-beta.1") None) ∧
  exec strictRe 0 (bumpSemver (js "1.2.3-beta.1") None)
    = Some [Some (bumpSemver (js "1.2.3-beta.1") None)].
Proof.
  apply (bumpSemver_passes_check (js "1.2.3-beta.1") None).
  apply (safe_intro _ (js "1") (js "2") (js "3") (js "-beta.1")); [|by vm_compute..].
  split; [reflexivity|].
  split_and!; try (split; [done|by repeat constructor]).
  right. eexists _, _. split_and!; [reflexivity|by right|by repeat constructor].
Defined.

End BumperMore.

(** ** More about the registry diff evaluator *)

Section EvaluatorMore.

Implicit Types (previous : option RegistryFile) (r : RegistryFile).
Implicit Types (l : list jsstring) (part : option BumpPart).

Lemma bumpSemver_not_nil v part : bumpSemver v part ≠ [].
Proof.
  unfold bumpSemver. destruct (exec semverRe 3 v) as [m|]; [|done].
  cbv zeta. destruct (default Minor part); simpl;
    intros H; apply app_eq_nil in H as [_ H]; done.
Qed.

Lemma baseVersion_not_nil previous l part :
  baseVersion (calculateNextVersion previous l part) ≠ [].
Proof.
  rewrite baseVersion_orString. destruct previous as [r|]; [|done].
  simpl. by destruct (version r).
Qed.

Lemma nextVersion_not_nil previous l part :
  nextVersion (calculateNextVersion previous l part) ≠ [].
Proof.
  rewrite nextVersion_decision.
  destruct (newIds _); [apply baseVersion_not_nil|apply bumpSemver_not_nil].
Qed.

(** X13. Neither [baseVersion] nor [nextVersion] is ever the empty
    string, whatever the snapshot, the local identifiers and the
    category. *)
Theorem versions_not_empty previous l part :
  baseVersion (calculateNextVersion previous l part) ≠ [] ∧
  nextVersion (calculateNextVersion previous l part) ≠ [].
Proof. split; [apply baseVersion_not_nil|apply nextVersion_not_nil]. Qed.

(** X14. An identifier is new exactly when it is in the local list and
    not among the identifiers of the previous snapshot; and when the
    local list has no duplicate, neither has [newIds]. *)
Theorem newIds_members previous l part :
  (∀ x, x ∈ newIds (calculateNextVersion previous l part) ↔ x ∈ l ∧ x ∉ known previous) ∧
  (NoDup l → NoDup (newIds (calculateNextVersion previous l part))).
Proof.
  rewrite newIds_filter. split.
  - intros x. rewrite list_elem_of_filter. tauto.
  - apply NoDup_filter.
Qed.

(** X15. Only the set of previous identifiers counts: two snapshots with
    the same version whose template lists hold the same identifiers, in
    any order and any number of times, give the same result. *)
Theorem previous_as_set r r' l part :
  version r = version r' →
  (∀ x, x ∈ id <$> templates r ↔ x ∈ id <$> templates r') →
  calculateNextVersion (Some r) l part = calculateNextVersion (Some r') l part.
Proof.
  intros Hv Hs. unfold calculateNextVersion. simpl.
  assert ((list_to_set (id <$> templates r) : gset jsstring)
          = list_to_set (id <$> templates r')) as ->.
  { apply set_eq. intros x. by rewrite !elem_of_list_to_set. }
  by rewrite Hv.
Qed.

Lemma previous_as_set_witness :
  calculateNextVersion
    (Some {| version := js "1.0.0";
             templates := [ {| id := js "a" |}; {| id := js "b" |} ] |})
    [js "b"; js "c"] None
  = calculateNextVersion
      (Some {| version := js "1.0.0";
               templates := [ {| id := js "b" |}; {| id := js "a" |}; {| id := js "b" |} ] |})
      [js "b"; js "c"] None.
Proof.
  apply (previous_as_set
           {| version := js "1.0.0";
              templates := [ {| id := js "a" |}; {| id := js "b" |} ] |}
           {| version := js "1.0.0";
              templates := [ {| id := js "b" |}; {| id := js "a" |}; {| id := js "b" |} ] |}
           [js "b"; js "c"] None).
  - reflexivity.
  - intros x. simpl. rewrite !elem_of_cons, !elem_of_nil. tauto.
Defined.

(** X16. Publishing and evaluating again changes nothing: against a
    snapshot that carries the [nextVersion] of a result and the local
    identifiers as templates, the same local list gives no new
    identifier and the same version, for every category. *)
Theorem republish_is_noop previous l part part' :
  calculateNextVersion
    (Some {| version := nextVersion (calculateNextVersion previous l part);
             templates := (λ i, {| id := i |}) <$> l |})
    l part'
  = {| baseVersion := nextVersion (calculateNextVersion previous l part);
       nextVersion := nextVersion (calculateNextVersion previous l part);
       newIds := [] |}.
Proof.
  pose proof (nextVersion_not_nil previous l part) as Hne.
  set (v := nextVersion (calculateNextVersion previous l part)) in *.
  set (r := {| version := v; templates := (λ i, {| id := i |}) <$> l |}).
  assert (newIds (calculateNextVersion (Some r) l part') = []) as Hnew.
  { rewrite newIds_filter. apply filter_known_nil. intros x Hx. simpl.
    rewrite <- list_fmap_compose. by rewrite list_fmap_id. }
  assert (baseVersion (calculateNextVersion (Some r) l part') = v) as Hbase.
  { rewrite baseVersion_orString. simpl. by destruct v. }
  assert (nextVersion (calculateNextVersion (Some r) l part') = v) as Hnext.
  { by rewrite nextVersion_decision, Hnew. }
  destruct (calculateNextVersion (Some r) l part') as [b n i]. simpl in *. by subst.
Qed.

(** X17. The live-registry check passes whenever [baseVersion] is a bare
    triple of safe integers, which it is in particular when there is no
    snapshot: the result is then that version or its bump. *)
Theorem versionCheck_passes previous l part :
  bare (baseVersion (calculateNextVersion previous l part)) →
  safe (baseVersion (calculateNextVersion previous l part)) →
  versionCheck (calculateNextVersion previous l part) = Normal.
Proof.
  intros Hb Hs. unfold versionCheck. rewrite exec_strictRe_bare; [done|].
  rewrite nextVersion_decision. destruct (newIds _); [done|].
  by apply bumpSemver_bare.
Qed.

Lemma versionCheck_passes_witness :
  versionCheck (calculateNextVersion None [js "template-a"] (Some Major)) = Normal.
Proof.
  apply (versionCheck_passes None [js "template-a"] (Some Major)).
  - exists (js "1"), (js "0"), (js "0"). split; [reflexivity|].
    split_and!; try (split; [done|by repeat constructor]). by left.
  - apply (safe_intro _ (js "1") (js "0") (js "0") []); [|by vm_compute..].
    split; [reflexivity|].
    split_and!; try (split; [done|by repeat constructor]). by left.
Defined.

(** X18. The check is stricter than [bumpSemver]: when the version of
    the snapshot is not empty and not a bare triple (it carries a
    suffix, say) and no local identifier is new, the version comes back
    unchanged and the check throws. *)
Theorem versionCheck_throws r l part :
  version r ≠ [] →
  ¬ bare (version r) →
  (∀ x, x ∈ l → x ∈ known (Some r)) →
  versionCheck (calculateNextVersion (Some r) l part)
  = Throw (js "Invalid version format: " ++ version r).
Proof.
  intros Hne Hb Hl. unfold versionCheck.
  rewrite (version_passes_through r l part Hne Hl).
  by rewrite exec_strictRe_not_bare.
Qed.

Lemma versionCheck_throws_witness :
  versionCheck (calculateNextVersion
                  (Some {| version := js "1.2.3-beta.1";
                           templates := [ {| id := js "homepage" |} ] |})
                  [js "homepage"] None)
  = Throw (js "Invalid version format: 1.2.3-beta.1").
Proof.
  apply (versionCheck_throws
           {| version := js "1.2.3-beta.1"; templates := [ {| id := js "homepage" |} ] |}
           [js "homepage"] None).
  - by vm_compute.
  - intros H%exec_strictRe_bare. by vm_compute in H.
  - intros x Hx. exact Hx.
Defined.

End EvaluatorMore.

(** ** Components that overflow *)

Section Overflow.

Lemma roundF64_huge x : 2 ^ 1024 ≤ x → roundF64 x = Infinity.
Proof.
  intros Hx. unfold roundF64.
  assert (2 ^ 53 ≤ 2 ^ 1024) as H53 by (apply Z.pow_le_mono_r; lia).
  rewrite (proj2 (Z.ltb_ge _ _) (Z.le_trans _ _ _ H53 Hx)).
  set (e := Z.log2 x - 52). set (q := x / 2 ^ e). set (r := x mod 2 ^ e).
  set (q' := if 2 * r <? 2 ^ e then q
             else if 2 ^ e <? 2 * r then q + 1 else if Z.even q then q else q + 1).
  assert (0 < x) as Hpos.
  { eapply Z.lt_le_trans; [|exact Hx]. apply Z.pow_pos_nonneg; lia. }
  assert (1024 ≤ Z.log2 x) as Hlog by (by apply Z.log2_le_pow2).
  assert (0 < 2 ^ e) as He0 by (apply Z.pow_pos_nonneg; lia).
  assert (2 ^ 972 ≤ 2 ^ e) as He by (apply Z.pow_le_mono_r; lia).
  assert (2 ^ 52 ≤ q) as Hq.
  { apply Z.div_le_lower_bound; [lia|].
    rewrite Z.mul_comm, <- Z.pow_add_r by lia.
    replace (52 + e) with (Z.log2 x) by lia. by apply Z.log2_spec. }
  assert (q ≤ q') as Hq'.
  { unfold q'. repeat case_match; lia. }
  assert (2 ^ 1024 ≤ q' * 2 ^ e) as Hy.
  { change 1024 with (52 + 972). rewrite Z.pow_add_r by lia.
    apply Z.mul_le_mono_nonneg; [apply Z.pow_nonneg| |apply Z.pow_nonneg|]; lia. }
  by rewrite (proj2 (Z.ltb_ge _ _) Hy).
Qed.

Lemma bare_head_digit v : bare v → ∃ c tl, v = c :: tl ∧ isDigit c = true.
Proof.
  intros (a & b & c & -> & [Hna Ha] & _).
  destruct Ha as [|d a Hd _]; [done|]. by exists d, (a ++ js "." ++ b ++ js "." ++ c ++ []).
Qed.

(** X19. A major component of [2^1024] or more is read as [Infinity]
    and stays so: for every category the result starts with
    [Infinity.], and it is not a bare triple, so the version check of
    the live-registry test would refuse it. *)
Theorem bumpSemver_overflow v a b c suf part :
  triple v a b c suf →
  2 ^ 1024 ≤ mathInt a →
  (∃ tl, bumpSemver v part = js "Infinity." ++ tl) ∧
  ¬ bare (bumpSemver v part) ∧
  exec strictRe 0 (bumpSemver v part) = None.
Proof.
  intros Ht Ha.
  assert (∃ tl, bumpSemver v part = js "Infinity." ++ tl) as [tl E].
  { rewrite (bumpSemver_matched _ _ _ _ _ _ Ht). cbv zeta.
    assert (parseInt10 (Some a) = Infinity) as ->.
    { destruct Ht as (_ & [Hna Hda] & _). unfold parseInt10.
      rewrite digitPrefix_digits, decide_False by done. by apply roundF64_huge. }
    destruct (default Minor part); simpl; eexists; reflexivity. }
  assert (¬ bare (bumpSemver v part)) as Hb.
  { rewrite E. intros (d & t & [= <- _] & Hd)%bare_head_digit. done. }
  split_and!; [by exists tl|done|by apply exec_strictRe_not_bare].
Qed.

Lemma bumpSemver_overflow_witness :
  (∃ tl, bumpSemver (js "1" ++ replicate 309 48%N ++ js ".2.3") (Some Major)
         = js "Infinity." ++ tl) ∧
  ¬ bare (bumpSemver (js "1" ++ replicate 309 48%N ++ js ".2.3") (Some Major)) ∧
  exec strictRe 0 (bumpSemver (js "1" ++ replicate 309 48%N ++ js ".2.3") (Some Major))
    = None.
Proof.
  apply (bumpSemver_overflow (js "1" ++ replicate 309 48%N ++ js ".2.3")
           (js "1" ++ replicate 309 48%N) (js "2") (js "3") [] (Some Major)).
  - split; [by vm_compute|].
    split_and!; try (split; [done|by repeat constructor]). by left.
  - by vm_compute.
Defined.

End Overflow.
